(** * Verification of the critical-storm pipeline of tuflow_ensemble (te.py)

    Shallow embedding of the functions of [src/tuflow_ensemble/te.py]:
    Python strings are modelled as [string] (ASCII), pandas cells as
    [option] values ([None] is NaN / missing), flow values as rationals [Q],
    and a raised Python exception as [None] of an [option] result. *)

From Stdlib Require Import Strings.String Strings.Ascii Lists.List Bool.
From Stdlib Require Import ZArith NArith QArith Qminmax Lqa Lia Sorted Permutation.
Import ListNotations.
Open Scope string_scope.

(* ------------------------------------------------------------------ *)
(** ** Characters and strings *)

Definition ascii_code (c : ascii) : nat := nat_of_ascii c.

Definition is_digit (c : ascii) : bool :=
  (48 <=? ascii_code c)%nat && (ascii_code c <=? 57)%nat.

Definition digit_val (c : ascii) : N := N.of_nat (ascii_code c - 48).

(** [[a-zA-Z]] of Python's [re]. *)
Definition is_letter (c : ascii) : bool :=
  ((65 <=? ascii_code c)%nat && (ascii_code c <=? 90)%nat)
  || ((97 <=? ascii_code c)%nat && (ascii_code c <=? 122)%nat).

(** Python's [str.lower] on ASCII characters. *)
Definition lower_char (c : ascii) : ascii :=
  if ((65 <=? ascii_code c)%nat && (ascii_code c <=? 90)%nat)
  then ascii_of_nat (ascii_code c + 32) else c.

Fixpoint str_lower (s : string) : string :=
  match s with
  | EmptyString => EmptyString
  | String c r => String (lower_char c) (str_lower r)
  end.

Fixpoint prefixb (p s : string) : bool :=
  match p, s with
  | EmptyString, _ => true
  | String a p', String b s' => Ascii.eqb a b && prefixb p' s'
  | String _ _, EmptyString => false
  end.

(** Python's [needle in hay] for strings. *)
Fixpoint contains (needle hay : string) : bool :=
  prefixb needle hay ||
  match hay with
  | EmptyString => false
  | String _ r => contains needle r
  end.

(** Python's [s.replace(old, new)] for a non-empty [old]: occurrences are
    replaced left to right, without overlap.  [fuel] is the length of [s];
    every step consumes at least one character. *)
Fixpoint replace_fuel (fuel : nat) (old new s : string) : string :=
  match fuel with
  | O => s
  | S f =>
      match s with
      | EmptyString => EmptyString
      | String c r =>
          if negb (String.eqb old EmptyString) && prefixb old s
          then new ++ replace_fuel f old new
                        (substring (String.length old) (String.length s) s)
          else String c (replace_fuel f old new r)
      end
  end.

Definition py_replace (old new s : string) : string :=
  replace_fuel (String.length s) old new s.

(* ------------------------------------------------------------------ *)
(** ** [_str_to_valid_filename] *)

Definition invalid_chars : string := "%:/,\[]<>*?".

(** The loop [for c in name: if c in invalid_chars: c = "-"; valid_name += c]. *)
Fixpoint valid_name_loop (valid_name name : string) : string :=
  match name with
  | EmptyString => valid_name
  | String c r =>
      let c' := if contains (String c EmptyString) invalid_chars
                then "-"%char else c in
      valid_name_loop (valid_name ++ String c' EmptyString) r
  end.

Definition _str_to_valid_filename (name : string) : string :=
  valid_name_loop EmptyString name.

(* ------------------------------------------------------------------ *)
(** ** [_parse_run_id] *)

(** Text up to the next ['_'], failing at a newline ([.] of [re] does not
    match ['\n']) or at the end of the string. *)
Fixpoint lazy_to_underscore (s : string) : option string :=
  match s with
  | EmptyString => None
  | String c r =>
      if Ascii.eqb c "_" then Some EmptyString
      else if Ascii.eqb c "010" then None
      else option_map (String c) (lazy_to_underscore r)
  end.

(** [re.search(r"_.*?_", s).group()]: leftmost match. *)
Fixpoint search_storm (s : string) : option string :=
  match s with
  | EmptyString => None
  | String c r =>
      if Ascii.eqb c "_" then
        match lazy_to_underscore r with
        | Some m => Some ("_" ++ m ++ "_")
        | None => search_storm r
        end
      else search_storm r
  end.

(** Greedy [\d{0,k}] from the start of a string: the digits and the rest. *)
Fixpoint take_digits (k : nat) (s : string) : string * string :=
  match k, s with
  | S k', String c r =>
      if is_digit c then
        let (d, rest) := take_digits k' r in (String c d, rest)
      else (EmptyString, s)
  | _, _ => (EmptyString, s)
  end.

(** [\d{1,4}m] anchored at the start of [s].  Backtracking to fewer digits
    than the greedy count never helps: the character after them is then a
    digit, not ['m']. *)
Definition match_duration_at (s : string) : option string :=
  let (d, rest) := take_digits 4 s in
  if negb (String.eqb d EmptyString) && prefixb "m" rest
  then Some (d ++ "m") else None.

Fixpoint search_duration (s : string) : option string :=
  match match_duration_at s with
  | Some m => Some m
  | None =>
      match s with
      | EmptyString => None
      | String _ r => search_duration r
      end
  end.

(** [tp\d*] anchored at the start of [s]. *)
Definition match_tp_at (s : string) : option string :=
  if prefixb "tp" s
  then Some ("tp" ++ fst (take_digits (String.length s) (substring 2 (String.length s) s)))
  else None.

Fixpoint search_tp (s : string) : option string :=
  match match_tp_at s with
  | Some m => Some m
  | None =>
      match s with
      | EmptyString => None
      | String _ r => search_tp r
      end
  end.

(** [_parse_run_id]: [None] when one of the [re.search] calls returns
    [None] (then [.group()] raises [AttributeError]). *)
Definition _parse_run_id (run_id : string) : option (string * string * string) :=
  let run_id_l := str_lower run_id in
  match search_storm run_id_l with
  | None => None
  | Some g =>
      let storm := py_replace "_" "" g in
      match search_duration run_id_l with
      | None => None
      | Some duration =>
          match search_tp run_id_l with
          | None => None
          | Some temp_patt => Some (storm, duration, temp_patt)
          end
      end
  end.

(* ------------------------------------------------------------------ *)
(** ** Small helpers on options and lists *)

Fixpoint mapM {A B} (f : A -> option B) (l : list A) : option (list B) :=
  match l with
  | [] => Some []
  | x :: r =>
      match f x with
      | None => None
      | Some y => match mapM f r with None => None | Some ys => Some (y :: ys) end
      end
  end.

(** [Series.unique()]: values in order of first appearance. *)
Fixpoint unique_aux (seen : list string) (l : list string) : list string :=
  match l with
  | [] => []
  | x :: r =>
      if existsb (String.eqb x) seen then unique_aux seen r
      else x :: unique_aux (x :: seen) r
  end.

Definition unique (l : list string) : list string := unique_aux [] l.

(** Lookup by label in an ordered row; [None] is [KeyError]. *)
Fixpoint lookup {A} (k : string) (row : list (string * A)) : option A :=
  match row with
  | [] => None
  | (k', v) :: r => if String.eqb k k' then Some v else lookup k r
  end.

Definition Qltb (a b : Q) : bool := negb (Qle_bool b a).

(* ------------------------------------------------------------------ *)
(** ** Index labels, [str] and [int] *)

(** A pandas index label: a string (durations read from file names) or a
    Python [int] (after [_drop_sort_duration]). *)
Inductive label := LStr (s : string) | LInt (z : Z).

Definition digit_char (n : N) : ascii := ascii_of_nat (48 + N.to_nat n).

Fixpoint N_digits (fuel : nat) (n : N) : string :=
  match fuel with
  | O => EmptyString
  | S f =>
      if (n <? 10)%N then String (digit_char n) EmptyString
      else N_digits f (n / 10) ++ String (digit_char (n mod 10)) EmptyString
  end.

Definition N_to_dec (n : N) : string := N_digits (S (N.to_nat n)) n.

(** Python's [str] of an [int]. *)
Definition Z_to_dec (z : Z) : string :=
  match z with
  | Zneg p => "-" ++ N_to_dec (Npos p)
  | _ => N_to_dec (Z.to_N z)
  end.

Definition py_str (l : label) : string :=
  match l with LStr s => s | LInt z => Z_to_dec z end.

(** [str.isspace] on an ASCII character, as [int()] strips it. *)
Definition is_space (c : ascii) : bool :=
  existsb (Ascii.eqb c) [" "%char; "009"%char; "010"%char; "011"%char; "012"%char; "013"%char;
                         "028"%char; "029"%char; "030"%char; "031"%char].

Fixpoint lstrip (l : list ascii) : list ascii :=
  match l with
  | c :: r => if is_space c then lstrip r else l
  | [] => []
  end.

Definition py_strip (l : list ascii) : list ascii := rev (lstrip (rev (lstrip l))).

(** Decimal digits, single underscores allowed between digits. *)
Fixpoint digits_us (acc : N) (after_digit : bool) (l : list ascii) : option N :=
  match l with
  | [] => if after_digit then Some acc else None
  | c :: r =>
      if is_digit c then digits_us (acc * 10 + digit_val c)%N true r
      else if Ascii.eqb c "_" && after_digit then digits_us acc false r
      else None
  end.

(** Python's [int(x)] on a string; [None] is [ValueError]. *)
Definition py_int (s : string) : option Z :=
  let l := py_strip (list_ascii_of_string s) in
  match l with
  | c :: r =>
      if Ascii.eqb c "+" then option_map Z.of_N (digits_us 0 false r)
      else if Ascii.eqb c "-" then option_map (fun n => Z.opp (Z.of_N n)) (digits_us 0 false r)
      else option_map Z.of_N (digits_us 0 false l)
  | [] => None
  end.

(** [re.sub(r"[a-zA-Z]", "", s)]. *)
Fixpoint strip_letters (s : string) : string :=
  match s with
  | EmptyString => EmptyString
  | String c r => if is_letter c then strip_letters r else String c (strip_letters r)
  end.

(* ------------------------------------------------------------------ *)
(** ** [_drop_sort_duration] *)

Fixpoint sorted_keys (l : list Z) : bool :=
  match l with
  | x :: ((y :: _) as r) => (x <=? y)%Z && sorted_keys r
  | _ => true
  end.

Fixpoint insert_by_key {A} (x : Z * A) (l : list (Z * A)) : list (Z * A) :=
  match l with
  | [] => [x]
  | y :: r => if (fst x <? fst y)%Z then x :: l else y :: insert_by_key x r
  end.

(** [sort_index()]: pandas returns the frame as it is when the index is
    already monotonic increasing; otherwise it argsorts the keys.  The
    argsort is modelled as a stable insertion sort (numpy fixes no order
    among equal keys). *)
Definition sort_index {A} (rows : list (Z * A)) : list (Z * A) :=
  if sorted_keys (map fst rows) then rows
  else fold_left (fun acc x => insert_by_key x acc) rows [].

(** [_drop_sort_duration]: the index is mapped through
    [int(re.sub("[a-zA-Z]", "", str(x)))], then the frame is sorted by it. *)
Definition _drop_sort_duration {A} (df : list (label * A)) : option (list (label * A)) :=
  match mapM (fun '(l, a) =>
                option_map (fun z => (z, a)) (py_int (strip_letters (py_str l)))) df with
  | None => None
  | Some keyed => Some (map (fun '(z, a) => (LInt z, a)) (sort_index keyed))
  end.

(* ------------------------------------------------------------------ *)
(** ** [_get_crit_tp] *)

Fixpoint dropna (row : list (string * option Q)) : list (string * Q) :=
  match row with
  | [] => []
  | (k, Some v) :: r => (k, v) :: dropna r
  | (_, None) :: r => dropna r
  end.

(** [_get_col_name]: [input_row[input_row == value].index[0]]; [None] is
    the [IndexError] of an empty selection. *)
Fixpoint _get_col_name (value : Q) (input_row : list (string * Q)) : option string :=
  match input_row with
  | [] => None
  | (k, v) :: r => if Qeq_bool v value then Some k else _get_col_name value r
  end.

(** [diffs[k] = v] on a Python dict (insertion ordered). *)
Fixpoint dict_set {A} (k : string) (v : A) (d : list (string * A)) : list (string * A) :=
  match d with
  | [] => [(k, v)]
  | (k', v') :: r => if String.eqb k k' then (k, v) :: r else (k', v') :: dict_set k v r
  end.

(** [cell - median]: NaN when the median is NaN. *)
Definition diff_of (cell : Q) (median : option Q) : option Q :=
  option_map (fun m => cell - m) median.

Fixpoint diffs_loop (median : option Q) (row : list (string * Q))
         (cells : list (string * Q)) (diffs : list (string * option Q))
  : option (list (string * option Q)) :=
  match cells with
  | [] => Some diffs
  | (_, cell) :: r =>
      match _get_col_name cell row with
      | None => None
      | Some col_name =>
          if contains "tp" col_name
          then diffs_loop median row r (dict_set col_name (diff_of cell median) diffs)
          else diffs_loop median row r diffs
      end
  end.

Fixpoint positive_diffs (d : list (string * option Q)) : list (string * Q) :=
  match d with
  | [] => []
  | (k, Some v) :: r => if Qltb 0 v then (k, v) :: positive_diffs r else positive_diffs r
  | (_, None) :: r => positive_diffs r
  end.

(** [min(d, key=d.get)]: the first key of least value. *)
Fixpoint min_key (best : string * Q) (rest : list (string * Q)) : string :=
  match rest with
  | [] => fst best
  | (k, v) :: r => if Qltb v (snd best) then min_key (k, v) r else min_key best r
  end.

Definition _get_crit_tp (row : list (string * option Q)) : option string :=
  match lookup "Median" row with
  | None => None
  | Some median =>
      let row' := dropna row in
      match diffs_loop median row' row' [] with
      | None => None
      | Some diffs =>
          match positive_diffs diffs with
          | [] => Some "NA"
          | p :: r => Some (min_key p r)
          end
      end
  end.

(* ------------------------------------------------------------------ *)
(** ** The ensemble table and the storm grid *)

(** A row of the table built by [concat_po_srs]: the run identity and the
    peak flow of each ["Max Flow <location>"] column of that run. *)
Record run := {
  run_id : string;
  r_event : string;
  r_duration : string;
  r_tp : string;
  r_flows : list (string * option Q)
}.

(** [e_cols]: the per-location columns of the table, in order. *)
Record ensemble := { e_cols : list string; e_runs : list run }.

(** A cell of the outer-joined table: NaN when the run has no such column. *)
Definition flow_of (c : string) (r : run) : option Q :=
  match lookup c (r_flows r) with Some v => v | None => None end.

Fixpoint str_insert (x : string) (l : list string) : list string :=
  match l with
  | [] => [x]
  | y :: r => if String.leb x y then x :: l else y :: str_insert x r
  end.

Definition str_sort (l : list string) : list string := fold_right str_insert [] l.

Definition same_pair (r r' : run) : bool :=
  String.eqb (r_duration r) (r_duration r') && String.eqb (r_tp r) (r_tp r').

Fixpoint has_dup_pair (rows : list run) : bool :=
  match rows with
  | [] => false
  | r :: rest => existsb (same_pair r) rest || has_dup_pair rest
  end.

Definition cell_at (po_line : string) (rows : list run) (d t : string) : option Q :=
  match find (fun r => String.eqb (r_duration r) d && String.eqb (r_tp r) t) rows with
  | Some r => flow_of po_line r
  | None => None
  end.

(** [df.pivot(index="Duration", columns="Temporal Pattern", values=po_line)]:
    [ValueError] on a duplicate (index, columns) pair; otherwise index and
    columns are the sorted distinct values, absent combinations are NaN. *)
Definition pivot (po_line : string) (rows : list run)
  : option (list (label * list (string * option Q))) :=
  if has_dup_pair rows then None
  else
    let idx := str_sort (unique (map r_duration rows)) in
    let cols := str_sort (unique (map r_tp rows)) in
    Some (map (fun d => (LStr d, map (fun t => (t, cell_at po_line rows d t)) cols)) idx).

Fixpoint Q_insert (x : Q) (l : list Q) : list Q :=
  match l with
  | [] => [x]
  | y :: r => if Qle_bool x y then x :: l else y :: Q_insert x r
  end.

Definition Q_sort (l : list Q) : list Q := fold_right Q_insert [] l.

(** Row-wise [mean] and [median], skipping NaN; NaN on an empty row. *)
Definition row_mean (vals : list Q) : option Q :=
  match vals with
  | [] => None
  | _ => Some (fold_right Qplus 0 vals / inject_Z (Z.of_nat (length vals)))
  end.

Definition row_median (vals : list Q) : option Q :=
  let s := Q_sort vals in
  let n := length s in
  match n with
  | O => None
  | _ => if Nat.odd n then Some (nth (n / 2) s 0)
         else Some ((nth (n / 2 - 1) s 0 + nth (n / 2) s 0) / 2)
  end.

(** The columns of a storm grid beside its index: the pivoted
    temporal-pattern cells, then [Average], [Median] and [Critical TP]. *)
Record gcols := {
  g_tps : list (string * option Q);
  g_avg : option Q;
  g_med : option Q;
  g_crit : string
}.

Definition grid := list (label * gcols).

(** One row of [dur_tp_df] after the three column assignments. *)
Definition add_stats (cells : list (string * option Q)) : option gcols :=
  let tp_vals := map snd (dropna (filter (fun p => contains "tp" (fst p)) cells)) in
  let avg := row_mean tp_vals in
  let med := row_median tp_vals in
  match _get_crit_tp (cells ++ [("Average", avg); ("Median", med)]) with
  | None => None
  | Some c => Some {| g_tps := cells; g_avg := avg; g_med := med; g_crit := c |}
  end.

(** [_tp_vs_max_flow_df] on the slice of one location column and one event
    (the frame name it sets is overwritten by its caller). *)
Definition _tp_vs_max_flow_df (po_line : string) (rows : list run)
  : option (string * string * grid) :=
  match unique (map r_event rows) with
  | [] => None
  | event :: _ =>
      match pivot po_line rows with
      | None => None
      | Some dur_tp_df =>
          match _drop_sort_duration dur_tp_df with
          | None => None
          | Some sorted =>
              match mapM (fun '(l, cells) => option_map (fun g => (l, g)) (add_stats cells)) sorted with
              | None => None
              | Some g => Some (event, po_line, g)
              end
          end
      end
  end.

(** [_split_po_dfs] then [_split_event]: one slice per location column and
    event, events in order of first appearance. *)
Definition slices (tbl : ensemble) : list (string * list run) :=
  concat (map (fun c =>
                 map (fun e => (c, filter (fun r => String.eqb (r_event r) e) (e_runs tbl)))
                     (unique (map r_event (e_runs tbl))))
              (filter (contains "Max Flow") (e_cols tbl))).

(** [all_critical_storms]: each grid named ["<event>: <po_line>"]. *)
Definition all_critical_storms (tbl : ensemble) : option (list (string * grid)) :=
  mapM (fun '(c, rows) =>
          match _tp_vs_max_flow_df c rows with
          | None => None
          | Some (event, po_line, df) =>
              match _drop_sort_duration df with
              | None => None
              | Some sorted_df => Some (event ++ ": " ++ po_line, sorted_df)
              end
          end) (slices tbl).

(* ------------------------------------------------------------------ *)
(** ** [summarize_results] *)

(** [Series.idxmax()]: the label of the first maximal non-NaN value. *)
Fixpoint idxmax (best : option (label * Q)) (g : grid) : option label :=
  match g with
  | [] => option_map fst best
  | (l, r) :: rest =>
      match g_med r, best with
      | None, _ => idxmax best rest
      | Some m, None => idxmax (Some (l, m)) rest
      | Some m, Some (_, bm) =>
          if Qltb bm m then idxmax (Some (l, m)) rest else idxmax best rest
      end
  end.

Definition label_eqb (a b : label) : bool :=
  match a, b with
  | LStr s, LStr s' => String.eqb s s'
  | LInt z, LInt z' => Z.eqb z z'
  | _, _ => false
  end.

(** [df.loc[label, ...]] on one row: a repeated label selects several rows,
    and the later [crit_tp == "NA"] test on a Series raises [ValueError]. *)
Definition loc_row (l : label) (g : grid) : option gcols :=
  match filter (fun p => label_eqb l (fst p)) g with
  | [(_, r)] => Some r
  | _ => None
  end.

Inductive flow_out := FlowNA | FlowVal (v : option Q) | FlowText (s : string).

Definition cell_loc (r : gcols) (col : string) : option flow_out :=
  match lookup col (g_tps r ++ [("Average", g_avg r); ("Median", g_med r)]) with
  | Some v => Some (FlowVal v)
  | None => if String.eqb col "Critical TP" then Some (FlowText (g_crit r)) else None
  end.

(** [str.split(":", 1)] unpacked into two names. *)
Fixpoint split_colon (s : string) : option (string * string) :=
  match s with
  | EmptyString => None
  | String c r =>
      if Ascii.eqb c ":" then Some (EmptyString, r)
      else option_map (fun '(a, b) => (String c a, b)) (split_colon r)
  end.

Record summary := {
  s_event : string;
  s_po_line : string;
  s_duration : label;
  s_tp : string;
  s_flow : flow_out
}.

Definition summarize_results (name : string) (crit_tp_df : grid) : option summary :=
  match idxmax None crit_tp_df with
  | None => None
  | Some crit_duration =>
      match loc_row crit_duration crit_tp_df with
      | None => None
      | Some row =>
          let crit_tp := g_crit row in
          match split_colon name with
          | None => None
          | Some (event, po_line) =>
              let po_line := py_replace "Max Flow " "" po_line in
              if String.eqb crit_tp "NA" then
                Some {| s_event := event; s_po_line := po_line;
                        s_duration := crit_duration; s_tp := crit_tp; s_flow := FlowNA |}
              else
                match cell_loc row crit_tp with
                | None => None
                | Some f =>
                    Some {| s_event := event; s_po_line := po_line;
                            s_duration := crit_duration; s_tp := crit_tp; s_flow := f |}
                end
          end
      end
  end.

(** The analysis of an ensemble table: every grid, then its summary. *)
Definition analyse_ensemble (tbl : ensemble) : option (list summary) :=
  match all_critical_storms tbl with
  | None => None
  | Some grids => mapM (fun '(name, g) => summarize_results name g) grids
  end.

(* ------------------------------------------------------------------ *)
(** ** Reading a PO file: [_header_length], [_header_col], [parse_po_csv] *)

(** A file as [csv.reader] yields it: one list of fields per line, a blank
    line being the empty list. *)
Definition csv_file := list (list string).

(** A pandas cell read from text, [None] being NaN.  Cells are kept as
    text: pandas turns a column into numbers only when every one of its
    cells is numeric, which a column holding a ["Flow"] header never is. *)
Definition cell := option string.

(** The strings [read_csv] reads as NaN by default. *)
Definition default_na_values : list string :=
  ["-1.#IND"; "1.#QNAN"; "1.#IND"; "-1.#QNAN"; "#N/A N/A"; "#N/A"; "N/A"; "n/a";
   "NA"; "<NA>"; "#NA"; "NULL"; "null"; "NaN"; "-NaN"; "nan"; "-nan"; "None"; ""].

Definition to_cell (f : string) : cell :=
  if existsb (String.eqb f) default_na_values then None else Some f.

(** [_header_length]: the width of the first line; [next(reader)] raises
    [StopIteration] on an empty file. *)
Definition _header_length (file : csv_file) : option nat :=
  match file with
  | [] => None
  | head :: _ => Some (length head)
  end.

Fixpoint first_index_aux (i : nat) (file : csv_file) : option nat :=
  match file with
  | [] => None
  | row :: r => if existsb (String.eqb "Flow") row then Some i else first_index_aux (S i) r
  end.

(** [_header_col]: the first line with a field equal to ["Flow"];
    [header_row[0]] raises [IndexError] when there is none. *)
Definition _header_col (file : csv_file) : option nat := first_index_aux 0 file.

Definition blank_char (c : ascii) : bool := Ascii.eqb c " " || Ascii.eqb c "009".

(** A line [read_csv] skips: empty, or spaces and tabs only.  A single
    empty field comes from a line holding [""] (an empty quoted field),
    which [read_csv] keeps as a row of NaN. *)
Definition nonblank (row : list string) : bool :=
  match row with
  | [] => false
  | [f] => String.eqb f EmptyString || negb (forallb blank_char (list_ascii_of_string f))
  | _ => true
  end.

(** A line restricted to [usecols=range(0, w)]: missing fields are NaN. *)
Definition pad_row (w : nat) (row : list string) : list cell :=
  firstn w (map to_cell row) ++ repeat None (w - length row).

(** [pd.read_csv(path, usecols=range(0, w), header=None)]: blank lines are
    skipped; a file without any other line raises [EmptyDataError]. *)
Definition read_csv (w : nat) (file : csv_file) : option (list (list cell)) :=
  match filter nonblank file with
  | [] => None
  | rows => Some (map (pad_row w) rows)
  end.

Fixpoint mask {A} (keep : list bool) (l : list A) : list A :=
  match keep, l with
  | b :: k, x :: r => if b then x :: mask k r else mask k r
  | _, _ => []
  end.

Definition cell_eqb (a b : cell) : bool :=
  match a, b with
  | Some x, Some y => String.eqb x y
  | None, None => true
  | _, _ => false
  end.

Fixpoint count_cell (c : cell) (l : list cell) : nat :=
  match l with
  | [] => O
  | x :: r => if cell_eqb x c then S (count_cell c r) else count_cell c r
  end.

Fixpoint remove_at {A} (i : nat) (l : list A) : list A :=
  match i, l with
  | _, [] => []
  | O, _ :: r => r
  | S i', x :: r => x :: remove_at i' r
  end.

(** [f"{label}"] of a column label: NaN prints as ["nan"]. *)
Definition cell_str (c : cell) : string :=
  match c with Some s => s | None => "nan" end.

Fixpoint basename_aux (cur s : string) : string :=
  match s with
  | EmptyString => cur
  | String c r => if Ascii.eqb c "/" then basename_aux EmptyString r
                  else basename_aux (cur ++ String c EmptyString) r
  end.

(** [os.path.basename] (POSIX): the text after the last ['/']. *)
Definition basename (p : string) : string := basename_aux EmptyString p.

(** The frame returned by [parse_po_csv]: the index (time column), the
    column labels, the rows of the remaining columns, and [df.name]. *)
Record po_table := {
  t_index : list cell;
  t_cols : list string;
  t_data : list (list cell);
  t_name : string
}.

(** [parse_po_csv].  [df.drop(first_column, axis=1)] removes every column
    carrying that label; [set_index] is modelled as failing when its label
    names several columns. *)
Definition parse_po_csv (input_file : string) (file : csv_file) : option po_table :=
  match _header_length file with
  | None => None
  | Some head_len =>
      match read_csv head_len file with
      | None => None
      | Some df =>
          match _header_col file with
          | None => None
          | Some head_col =>
              match nth_error df head_col with
              | None => None
              | Some columns =>
                  let rows := remove_at head_col df in
                  match columns with
                  | [] => None
                  | first_column :: _ =>
                      let keep := map (fun c => negb (cell_eqb c first_column)) columns in
                      let columns1 := mask keep columns in
                      let rows1 := map (mask keep) rows in
                      match columns1 with
                      | [] => None
                      | idx_col :: cols2 =>
                          if Nat.eqb (count_cell idx_col columns1) 1 then
                            Some {| t_index := map (fun r => hd None r) rows1;
                                    t_cols := map (fun '(i, c) => cell_str c ++ "." ++ N_to_dec (N.of_nat i))
                                                  (combine (seq 0 (length cols2)) cols2);
                                    t_data := map (@tl cell) rows1;
                                    t_name := basename input_file |}
                          else None
                      end
                  end
              end
          end
      end
  end.

(* ------------------------------------------------------------------ *)
(** ** [copy_po_csvs] and [_skipped_inputs] *)

(** [copy_po_csvs]: every input is copied to ["_local/" ++ basename]; a
    later input with the same basename overwrites the earlier copy.  Each
    copy is then read: [StopIteration] of an empty file escapes, an
    [EmptyDataError] drops the path, any other file is kept. *)
Definition local_store (csv_files : list (string * csv_file)) : list (string * csv_file) :=
  fold_left (fun st '(p, f) => dict_set (basename p) f st) csv_files [].

Definition copy_po_csvs (csv_files : list (string * csv_file)) : option (list string) :=
  let store := local_store csv_files in
  let filepaths := map (fun '(p, _) => "_local/" ++ basename p) csv_files in
  match mapM (fun path =>
                match lookup (basename path) store with
                | None => None
                | Some f =>
                    match _header_length f with
                    | None => None
                    | Some head_len =>
                        match read_csv (head_len - 1) f with
                        | None => Some []
                        | Some _ => Some [path]
                        end
                    end
                end) filepaths with
  | None => None
  | Some kept => Some (concat kept)
  end.

Definition _skipped_inputs (raw_inputs saved_inputs : list string) : list string :=
  let raw := map basename raw_inputs in
  let saved := map basename saved_inputs in
  filter (fun r => negb (existsb (String.eqb r) saved)) raw.

(* ------------------------------------------------------------------ *)
(** ** [pd.to_numeric(errors="coerce")] and [_get_all_max_flows] *)

(** A float64 value: finite, or an infinity ([true] for [+inf]). *)
Inductive num := NFin (q : Q) | NInf (pos : bool).

Fixpoint digits_run (acc : N) (n : nat) (l : list ascii) : N * nat * list ascii :=
  match l with
  | c :: r => if is_digit c then digits_run (acc * 10 + digit_val c)%N (S n) r else (acc, n, l)
  | [] => (acc, n, l)
  end.

Definition pow10 (k : nat) : Z := 10 ^ Z.of_nat k.

Definition scale10 (m : Z) (e : Z) : Q :=
  if (0 <=? e)%Z then inject_Z (m * 10 ^ e) else m # Z.to_pos (10 ^ (- e)).

(** The exponent part: [e] or [E], an optional sign, at least one digit,
    and nothing after it. *)
Definition parse_exponent (l : list ascii) : option Z :=
  match l with
  | [] => Some 0%Z
  | c :: r =>
      if Ascii.eqb c "e" || Ascii.eqb c "E" then
        let '(sgn, r') := match r with
                          | s :: r'' => if Ascii.eqb s "-" then (-1, r'')%Z
                                        else if Ascii.eqb s "+" then (1, r'')%Z else (1, r)%Z
                          | [] => (1, r)%Z
                          end in
        match digits_run 0 0 r' with
        | (e, S _, []) => Some (sgn * Z.of_N e)%Z
        | _ => None
        end
      else None
  end.

(** An unsigned decimal: digits, an optional fraction, at least one
    digit in all, then an optional exponent. *)
Definition parse_decimal (l : list ascii) : option Q :=
  let '(ip, ni, r1) := digits_run 0 0 l in
  let '(fp, nf, r2) := match r1 with
                       | c :: r => if Ascii.eqb c "." then digits_run 0 0 r else (0%N, O, r1)
                       | [] => (0%N, O, r1)
                       end in
  if Nat.eqb (ni + nf) 0 then None
  else
    match parse_exponent r2 with
    | None => None
    | Some e => Some (scale10 (Z.of_N ip * pow10 nf + Z.of_N fp) (e - Z.of_nat nf))
    end.

Definition lower_list (l : list ascii) : list ascii := map lower_char l.

(** One cell through [pd.to_numeric(..., errors="coerce")]: [None] is NaN,
    whether the text is ["nan"] or not numeric at all. *)
Definition to_numeric (c : cell) : option num :=
  match c with
  | None => None
  | Some s =>
      let l := py_strip (list_ascii_of_string s) in
      let '(neg, body) := match l with
                          | x :: r => if Ascii.eqb x "-" then (true, r)
                                      else if Ascii.eqb x "+" then (false, r) else (false, l)
                          | [] => (false, l)
                          end in
      let w := string_of_list_ascii (lower_list body) in
      if String.eqb w "inf" || String.eqb w "infinity" then Some (NInf (negb neg))
      else if String.eqb w "nan" then None
      else option_map (fun q => NFin (if neg then - q else q)) (parse_decimal body)
  end.

Definition num_leb (a b : num) : bool :=
  match a, b with
  | NInf false, _ => true
  | _, NInf true => true
  | NInf true, _ => false
  | _, NInf false => false
  | NFin x, NFin y => Qle_bool x y
  end.

(** [Series.max()] skipping NaN; NaN when there is no number. *)
Definition max_step (acc : option num) (c : cell) : option num :=
  match to_numeric c with
  | None => acc
  | Some v => match acc with
              | None => Some v
              | Some a => Some (if num_leb a v then v else a)
              end
  end.

Definition col_max (cells : list cell) : option num := fold_left max_step cells None.

Definition column (t : po_table) (j : nat) : list cell :=
  map (fun row => nth j row None) (t_data t).

(** The columns whose label contains ["Flow"], in order. *)
Definition flow_columns (t : po_table) : list (list cell) :=
  map snd (filter (fun p => contains "Flow" (fst p))
                  (combine (t_cols t) (map (column t) (seq 0 (length (t_cols t)))))).

(** [_get_po_lines]: [po_df[column][0]] reads the first cell of each flow
    column (positionally, the index holding text); [IndexError] on an
    empty column. *)
Definition _get_po_lines (t : po_table) : option (list cell) :=
  mapM (fun col => match col with [] => None | c :: _ => Some c end) (flow_columns t).

Record peak_row := {
  p_run_id : string;
  p_event : string;
  p_duration : string;
  p_tp : string;
  p_flows : list (string * option num)
}.

Definition _get_all_max_flows (po_sr : po_table) : option peak_row :=
  match _get_po_lines po_sr with
  | None => None
  | Some po_lines =>
      let po_lines_columns := map (fun s => "Max Flow " ++ cell_str s) po_lines in
      let po_max_flows := map col_max (flow_columns po_sr) in
      let run_id := t_name po_sr in
      match _parse_run_id run_id with
      | None => None
      | Some (storm, duration, temp_patt) =>
          Some {| p_run_id := run_id; p_event := storm; p_duration := duration;
                  p_tp := temp_patt; p_flows := combine po_lines_columns po_max_flows |}
      end
  end.

(** [concat_po_srs]: one peak row per table; any failure aborts. *)
Definition concat_po_srs (max_flows_dfs : list po_table) : option (list peak_row) :=
  mapM _get_all_max_flows max_flows_dfs.

(** The first steps of [main]: copy and filter the inputs, normalise each
    kept copy and extract its peaks; [None] is the batch failing. *)
Definition max_flows_batch (raw_inputs : list (string * csv_file)) : option (list peak_row) :=
  match copy_po_csvs raw_inputs with
  | None => None
  | Some saved_inputs =>
      match mapM (fun path => match lookup (basename path) (local_store raw_inputs) with
                              | None => None
                              | Some f => parse_po_csv path f
                              end) saved_inputs with
      | None => None
      | Some all_max_flows => concat_po_srs all_max_flows
      end
  end.

(* ------------------------------------------------------------------ *)
(** ** Paths: [os.path.join], [get_po_csvs], the plot file of [plot_results] *)

Fixpoint ends_slash (s : string) : bool :=
  match s with
  | EmptyString => false
  | String c EmptyString => Ascii.eqb c "/"
  | String _ r => ends_slash r
  end.

(** [os.path.join(a, b)] (POSIX) with two parts. *)
Definition os_path_join (a b : string) : string :=
  if prefixb "/" b then b
  else if String.eqb a EmptyString || ends_slash a then a ++ b
  else a ++ "/" ++ b.

(** [get_po_csvs]: [listing] is [os.listdir(input_dir)]. *)
Definition get_po_csvs (input_dir : string) (listing : list string) : list string :=
  map (os_path_join input_dir)
      (filter (fun file => contains "_po.csv" (str_lower file)) listing).

(** The file [plot_results] saves a grid named [name] to. *)
Definition plot_filepath (output_path name : string) : string :=
  os_path_join output_path (_str_to_valid_filename name) ++ ".png".

(* ------------------------------------------------------------------ *)
(** ** [_split_po_dfs] and [_split_event] *)

(** [_split_po_dfs]: one frame per ["Max Flow"] column, keeping only that
    location column beside the identity columns. *)
Definition _split_po_dfs (tbl : ensemble) : list (string * list run) :=
  map (fun c => (c, e_runs tbl)) (filter (contains "Max Flow") (e_cols tbl)).

(** [_split_event]: the rows of each event, events in order of first
    appearance. *)
Definition _split_event (rows : list run) : list (list run) :=
  map (fun event => filter (fun r => String.eqb (r_event r) event) rows)
      (unique (map r_event rows)).

(* ------------------------------------------------------------------ *)
(** ** Sample inputs *)

(** A two-duration grid: 60 min (median 5, no pattern above it) and
    90 min (median 11, [tp02] above it). *)
Definition sample_grid : grid :=
  [(LInt 60, {| g_tps := [("tp01", Some 5); ("tp02", None)];
                g_avg := Some 5; g_med := Some 5; g_crit := "NA" |});
   (LInt 90, {| g_tps := [("tp01", Some 10); ("tp02", Some 12)];
                g_avg := Some 11; g_med := Some 11; g_crit := "tp02" |})].

(** One event, one location, and the duration labels ["60m"] and ["060m"],
    which both read as 60 minutes. *)
Definition sample_run (d t : string) (v : Q) : run :=
  {| run_id := "Ex_1%_" ++ d ++ "_" ++ t ++ "_PO.csv"; r_event := "1%";
     r_duration := d; r_tp := t; r_flows := [("Max Flow A", Some v)] |}.

Definition collapse_table : ensemble :=
  {| e_cols := ["Max Flow A"];
     e_runs := [sample_run "60m" "tp01" 5; sample_run "060m" "tp01" 3;
                sample_run "90m" "tp01" 10; sample_run "90m" "tp02" 12] |}.

(** A PO file: a title line, the header line, the line of location
    names, then two time steps. *)
Definition sample_po_file : csv_file :=
  [["Example_1%_60m_tp01"; ""; "PO_A"; "PO_B"];
   ["Name"; "Time"; "Flow"; "Flow"];
   ["x"; "0.0"; "A"; "B"];
   ["x"; "1.0"; "3"; "2.5"];
   ["x"; "2.0"; "7"; "nan"]].


(** A file holding its header line only. *)
Definition header_only_file : csv_file := [["Name"; "Time"; "Flow"]].

(** A normalised table with one flow column [3, 7, NaN, 2]. *)
Definition peak_table : po_table :=
  {| t_index := [Some "0"; Some "1"; Some "2"; Some "3"];
     t_cols := ["Flow.0"];
     t_data := [[Some "3"]; [Some "7"]; [None]; [Some "2"]];
     t_name := "ex_1%_60m_tp01_PO.csv" |}.

(** A table with two events and two locations. *)
Definition two_event_run (e d t : string) (a b : Q) : run :=
  {| run_id := "Ex_" ++ e ++ "_" ++ d ++ "_" ++ t ++ "_PO.csv"; r_event := e;
     r_duration := d; r_tp := t;
     r_flows := [("Max Flow A", Some a); ("Max Flow B", Some b)] |}.

Definition two_event_table : ensemble :=
  {| e_cols := ["Max Flow A"; "Max Flow B"];
     e_runs := [two_event_run "1%" "60m" "tp01" 5 7; two_event_run "1%" "60m" "tp02" 6 8;
                two_event_run "2%" "60m" "tp01" 9 3; two_event_run "2%" "90m" "tp01" 4 2] |}.

(** The rows of one event, as [_split_event] selects them. *)
Definition event_filter (rows : list run) (e : string) : list run :=
  filter (fun r => String.eqb (r_event r) e) rows.

(** The event and PO line [summarize_results] reads off a grid name. *)
Definition name_parts (name : string) : string * string :=
  match split_colon name with
  | Some (event, po_line) => (event, py_replace "Max Flow " "" po_line)
  | None => (EmptyString, EmptyString)
  end.


(* ================================================================== *)
(** * Lemmas *)

(** ** Strings *)

Lemma contains_single (c : ascii) (s : string) :
  contains (String c EmptyString) s = existsb (Ascii.eqb c) (list_ascii_of_string s).
Proof.
  induction s as [|a s IH]; simpl; [reflexivity|].
  rewrite andb_true_r, IH. reflexivity.
Qed.

Lemma str_app_nil_r (s : string) : s ++ EmptyString = s.
Proof. induction s as [|c s IH]; simpl; [reflexivity | rewrite IH; reflexivity]. Qed.

Lemma str_app_assoc (a b c : string) : a ++ (b ++ c) = (a ++ b) ++ c.
Proof. induction a as [|x a IH]; simpl; [reflexivity | rewrite IH; reflexivity]. Qed.

Lemma valid_name_loop_app (acc s : string) :
  valid_name_loop acc s = acc ++ valid_name_loop EmptyString s.
Proof.
  revert acc; induction s as [|c s IH]; intros acc; simpl.
  - rewrite str_app_nil_r. reflexivity.
  - rewrite IH, (IH (String _ EmptyString)). rewrite str_app_assoc. reflexivity.
Qed.

Lemma str_to_valid_filename_cons (c : ascii) (r : string) :
  _str_to_valid_filename (String c r) =
  String (if existsb (Ascii.eqb c) ["%"; ":"; "/"; ","; "\"; "["; "]"; "<"; ">"; "*"; "?"]%char
          then "-"%char else c) (_str_to_valid_filename r).
Proof.
  unfold _str_to_valid_filename.
  transitivity (valid_name_loop
    (String (if contains (String c EmptyString) invalid_chars then "-"%char else c)
       EmptyString) r); [reflexivity|].
  rewrite valid_name_loop_app, contains_single. reflexivity.
Qed.

(** ** Claim C9 *)

(** C9: [_str_to_valid_filename] keeps the length of its argument and, at
    every position, writes ['-'] exactly where the character is one of
    [% : / , \ [ ] < > * ?], and the original character elsewhere. *)
Theorem str_to_valid_filename_spec (name : string) :
  String.length (_str_to_valid_filename name) = String.length name /\
  forall i c, String.get i name = Some c ->
    String.get i (_str_to_valid_filename name) =
    Some (if existsb (Ascii.eqb c) ["%"; ":"; "/"; ","; "\"; "["; "]"; "<"; ">"; "*"; "?"]%char
          then "-"%char else c).
Proof.
  induction name as [|a r [IHl IHg]].
  - split; [reflexivity|]. intros i c H. destruct i; discriminate.
  - rewrite str_to_valid_filename_cons. split.
    + simpl. rewrite IHl. reflexivity.
    + intros [|i] c H; simpl in H |- *.
      * injection H as ->. reflexivity.
      * apply IHg, H.
Qed.

Lemma str_to_valid_filename_spec_witness :
  String.get 1%nat "a:b" = Some ":"%char /\
  String.get 1%nat (_str_to_valid_filename "a:b") = Some "-"%char.
Proof.
  split; [reflexivity|].
  apply (proj2 (str_to_valid_filename_spec "a:b") 1%nat ":"%char). reflexivity.
Defined.

(** ** Run identity parser *)

Lemma take_digits_app (k : nat) (s : string) :
  fst (take_digits k s) ++ snd (take_digits k s) = s.
Proof.
  revert s; induction k as [|k IH]; intros [|c r]; simpl; try reflexivity.
  destruct (is_digit c); [|reflexivity].
  specialize (IH r). destruct (take_digits k r) as [d rest]. simpl in *. rewrite IH. reflexivity.
Qed.

Lemma take_digits_digits (k : nat) (s : string) :
  forallb is_digit (list_ascii_of_string (fst (take_digits k s))) = true /\
  (String.length (fst (take_digits k s)) <= k)%nat.
Proof.
  revert s; induction k as [|k IH]; intros [|c r]; cbn [take_digits fst]; try (split; [reflexivity | cbn; lia]).
  destruct (is_digit c) eqn:Ec; [|split; [reflexivity | cbn; lia]].
  specialize (IH r). destruct (take_digits k r) as [d rest]. cbn [fst] in *.
  destruct IH as [IH1 IH2]. cbn [list_ascii_of_string forallb String.length].
  rewrite Ec, IH1. split; [reflexivity | lia].
Qed.

Lemma match_duration_at_shape (s d : string) :
  match_duration_at s = Some d ->
  exists x, x <> EmptyString /\ forallb is_digit (list_ascii_of_string x) = true /\
            (String.length x <= 4)%nat /\ d = x ++ "m".
Proof.
  unfold match_duration_at. pose proof (take_digits_digits 4 s) as Hd.
  destruct (take_digits 4 s) as [x rest]. cbn [fst] in Hd. destruct Hd as [Hd1 Hd2].
  destruct (negb (String.eqb x EmptyString)) eqn:E, (prefixb "m" rest);
    simpl; intros H; try discriminate H. injection H as <-.
  exists x. split; [intros ->; discriminate E|]. split; [exact Hd1|]. split; [exact Hd2 | reflexivity].
Qed.

Lemma search_duration_unfold (s : string) :
  search_duration s =
  match match_duration_at s with
  | Some m => Some m
  | None => match s with EmptyString => None | String _ r => search_duration r end
  end.
Proof. destruct s; reflexivity. Qed.

Lemma search_tp_unfold (s : string) :
  search_tp s =
  match match_tp_at s with
  | Some m => Some m
  | None => match s with EmptyString => None | String _ r => search_tp r end
  end.
Proof. destruct s; reflexivity. Qed.

Lemma search_duration_shape (s d : string) :
  search_duration s = Some d ->
  exists x, x <> EmptyString /\ forallb is_digit (list_ascii_of_string x) = true /\
            (String.length x <= 4)%nat /\ d = x ++ "m".
Proof.
  induction s as [|c r IH]; intros H; rewrite search_duration_unfold in H;
    destruct (match_duration_at _) eqn:E.
  - injection H as <-. apply (match_duration_at_shape _ _ E).
  - discriminate H.
  - injection H as <-. apply (match_duration_at_shape _ _ E).
  - exact (IH H).
Qed.

Lemma match_tp_at_shape (s t : string) :
  match_tp_at s = Some t -> exists y, forallb is_digit (list_ascii_of_string y) = true /\ t = "tp" ++ y.
Proof.
  unfold match_tp_at. destruct (prefixb "tp" s); intros H; [|discriminate H].
  injection H as <-. eexists; split; [apply take_digits_digits | reflexivity].
Qed.

Lemma search_tp_shape (s t : string) :
  search_tp s = Some t -> exists y, forallb is_digit (list_ascii_of_string y) = true /\ t = "tp" ++ y.
Proof.
  induction s as [|c r IH]; intros H; rewrite search_tp_unfold in H;
    destruct (match_tp_at _) eqn:E.
  - injection H as <-. apply (match_tp_at_shape _ _ E).
  - discriminate H.
  - injection H as <-. apply (match_tp_at_shape _ _ E).
  - exact (IH H).
Qed.

Lemma parse_run_id_example :
  _parse_run_id "Example-Catchment_0.5EY_360m_tp07_no-blockages_001_PO.csv"
  = Some ("0.5ey", "360m", "tp07").
Proof. vm_compute. reflexivity. Qed.

Lemma parse_run_id_empty_event :
  _parse_run_id "x__360m_tp07" = Some (EmptyString, "360m", "tp07").
Proof. vm_compute. reflexivity. Qed.

(** ** Claim C4 *)

(** C4 (as amended): [_parse_run_id] fails exactly when one of its three
    searches (event [_.*?_], duration [\d{1,4}m], pattern [tp\d*], on the
    lower-cased name) finds nothing; when it succeeds, the duration is a
    run of one to four digits followed by ["m"] and the pattern is ["tp"]
    followed by digits only, so both are non-empty, while the event may be empty (two
    adjacent underscores); the test file name parses to
    [("0.5ey", "360m", "tp07")]. *)
Theorem parse_run_id_spec (s : string) :
  (_parse_run_id s = None <->
     search_storm (str_lower s) = None \/ search_duration (str_lower s) = None \/
     search_tp (str_lower s) = None) /\
  (forall st d t, _parse_run_id s = Some (st, d, t) ->
     (exists x, x <> EmptyString /\ forallb is_digit (list_ascii_of_string x) = true /\
                (String.length x <= 4)%nat /\ d = x ++ "m") /\
     (exists y, forallb is_digit (list_ascii_of_string y) = true /\ t = "tp" ++ y)) /\
  _parse_run_id "Example-Catchment_0.5EY_360m_tp07_no-blockages_001_PO.csv"
  = Some ("0.5ey", "360m", "tp07").
Proof.
  split; [|split; [|exact parse_run_id_example]].
  - unfold _parse_run_id.
    destruct (search_storm (str_lower s)), (search_duration (str_lower s)),
             (search_tp (str_lower s)); split; intros H;
      try discriminate; try reflexivity; intuition discriminate.
  - intros st d t. unfold _parse_run_id.
    destruct (search_storm (str_lower s)); [|discriminate].
    destruct (search_duration (str_lower s)) eqn:Ed; [|discriminate].
    destruct (search_tp (str_lower s)) eqn:Et; [|discriminate].
    intros H; injection H as _ <- <-.
    split; [apply (search_duration_shape _ _ Ed) | apply (search_tp_shape _ _ Et)].
Qed.

Lemma parse_run_id_spec_witness :
  _parse_run_id "x_1ey_9m_tp2" = Some ("1ey", "9m", "tp2") /\
  (exists x, x <> EmptyString /\ forallb is_digit (list_ascii_of_string x) = true /\
             (String.length x <= 4)%nat /\ "9m" = x ++ "m") /\
  (exists y, forallb is_digit (list_ascii_of_string y) = true /\ "tp2" = "tp" ++ y).
Proof.
  split; [vm_compute; reflexivity|].
  apply (proj1 (proj2 (parse_run_id_spec "x_1ey_9m_tp2")) "1ey" "9m" "tp2").
  vm_compute. reflexivity.
Defined.

(** C4 counterexample: a name in which all three patterns are found but the
    event between the first two underscores is empty. *)
Lemma parse_run_id_nonempty_counterexample :
  ~ (forall s st d t, _parse_run_id s = Some (st, d, t) ->
       st <> EmptyString /\ d <> EmptyString /\ t <> EmptyString).
Proof.
  intros H.
  destruct (H _ _ _ _ parse_run_id_empty_event) as [Hst _].
  apply Hst. reflexivity.
Qed.

(** ** Critical temporal pattern *)

Lemma Qltb_iff (a b : Q) : Qltb a b = true <-> a < b.
Proof.
  unfold Qltb. rewrite negb_true_iff. split; intros H.
  - apply Qnot_le_lt. intros H'. apply Qle_bool_iff in H'. congruence.
  - destruct (Qle_bool b a) eqn:E; [|reflexivity].
    apply Qle_bool_iff in E. exfalso. apply (Qlt_not_le _ _ H E).
Qed.

Lemma Qltb_false (a b : Q) : Qltb a b = false <-> b <= a.
Proof.
  unfold Qltb. rewrite negb_false_iff. apply Qle_bool_iff.
Qed.

Lemma tp_not_median (k : string) : contains "tp" k = true -> String.eqb "Median" k = false.
Proof.
  intros H. destruct (String.eqb_spec "Median" k) as [<-|]; [discriminate H | reflexivity].
Qed.

Lemma tp_not_average (k : string) : contains "tp" k = true -> k <> "Average".
Proof. intros H ->. discriminate H. Qed.

Lemma lookup_median_tps (tps : list (string * option Q)) (rest : list (string * option Q)) :
  Forall (fun p => contains "tp" (fst p) = true) tps ->
  lookup "Median" (tps ++ rest) = lookup "Median" rest.
Proof.
  induction tps as [|[k v] tps IH]; intros Hf; cbn [lookup app]; [reflexivity|].
  inversion Hf as [|? ? Hk Hf']; subst. simpl in Hk.
  rewrite tp_not_median by exact Hk. apply IH, Hf'.
Qed.

Lemma dropna_app (a b : list (string * option Q)) : dropna (a ++ b) = (dropna a ++ dropna b)%list.
Proof.
  induction a as [|[k [v|]] a IH]; simpl; [reflexivity | rewrite IH; reflexivity | exact IH].
Qed.

Lemma In_dropna (k : string) (v : Q) (l : list (string * option Q)) :
  In (k, v) (dropna l) <-> In (k, Some v) l.
Proof.
  induction l as [|[k' [v'|]] l IH]; simpl; [tauto| |].
  - rewrite IH. split; intros [H|H]; auto; left; congruence.
  - rewrite IH. split; [auto|]. intros [H|H]; [discriminate H | exact H].
Qed.

Lemma map_fst_dropna_incl (l : list (string * option Q)) (k : string) :
  In k (map fst (dropna l)) -> In k (map fst l).
Proof.
  induction l as [|[k' [v'|]] l IH]; simpl; [tauto| |]; intros H.
  - destruct H as [H|H]; [left; exact H | right; apply IH, H].
  - right. apply IH, H.
Qed.

Lemma NoDup_dropna (l : list (string * option Q)) :
  NoDup (map fst l) -> NoDup (map fst (dropna l)).
Proof.
  induction l as [|[k [v|]] l IH]; simpl; intros H; [constructor| |].
  - inversion H as [|? ? Hn Hd]; subst. constructor; [|apply IH, Hd].
    intros Hin. apply Hn, map_fst_dropna_incl, Hin.
  - inversion H as [|? ? Hn Hd]; subst. apply IH, Hd.
Qed.

Lemma get_col_name_sound (c : Q) (row : list (string * Q)) (k : string) :
  _get_col_name c row = Some k -> exists v, In (k, v) row /\ v == c.
Proof.
  induction row as [|[k' v'] row IH]; simpl; [discriminate|].
  destruct (Qeq_bool v' c) eqn:E; intros H.
  - injection H as <-. exists v'. split; [left; reflexivity | apply Qeq_bool_iff, E].
  - destruct (IH H) as [v [Hin Hv]]. exists v. split; [right; exact Hin | exact Hv].
Qed.

Lemma get_col_name_found (c v : Q) (n : string) (row : list (string * Q)) :
  In (n, v) row -> v == c -> exists k v', _get_col_name c row = Some k /\ In (k, v') row.
Proof.
  induction row as [|[k' v'] row IH]; simpl; [tauto|].
  intros Hin Hv. destruct (Qeq_bool v' c) eqn:E.
  - exists k', v'. split; [reflexivity | left; reflexivity].
  - destruct Hin as [Heq|Hin].
    + injection Heq as -> ->. apply Qeq_bool_iff in Hv. congruence.
    + destruct (IH Hin Hv) as [k [v'' [H1 H2]]]. exists k, v''. split; [exact H1 | right; exact H2].
Qed.

Lemma get_col_name_app_l (c : Q) (l1 l2 : list (string * Q)) (k : string) :
  _get_col_name c l1 = Some k -> _get_col_name c (l1 ++ l2) = Some k.
Proof.
  induction l1 as [|[k' v'] l1 IH]; simpl; [discriminate|].
  destruct (Qeq_bool v' c); [tauto | exact IH].
Qed.

Lemma NoDup_map_fst_In {A} (l : list (string * A)) (k : string) (a b : A) :
  NoDup (map fst l) -> In (k, a) l -> In (k, b) l -> a = b.
Proof.
  induction l as [|[k' v'] l IH]; simpl; [tauto|].
  intros Hd Ha Hb. inversion Hd as [|? ? Hn Hd']; subst.
  destruct Ha as [Ha|Ha], Hb as [Hb|Hb].
  - congruence.
  - injection Ha as -> ->. exfalso. apply Hn. apply (in_map fst _ _ Hb).
  - injection Hb as -> ->. exfalso. apply Hn. apply (in_map fst _ _ Ha).
  - apply (IH Hd' Ha Hb).
Qed.

Lemma In_dict_set {A} (k k' : string) (x x' : A) (d : list (string * A)) :
  In (k', x') (dict_set k x d) -> (k', x') = (k, x) \/ In (k', x') d.
Proof.
  induction d as [|[k0 x0] d IH]; simpl; [intuition|].
  destruct (String.eqb k k0); simpl; intros [H|H]; auto.
  destruct (IH H); auto.
Qed.

Lemma dict_set_key {A} (k : string) (x : A) (d : list (string * A)) :
  In k (map fst (dict_set k x d)).
Proof.
  induction d as [|[k0 x0] d IH]; simpl; [auto|].
  destruct (String.eqb k k0); simpl; auto.
Qed.

Lemma dict_set_keep {A} (k k' : string) (x : A) (d : list (string * A)) :
  In k' (map fst d) -> In k' (map fst (dict_set k x d)).
Proof.
  induction d as [|[k0 x0] d IH]; simpl; [tauto|].
  destruct (String.eqb k k0) eqn:E; simpl; intros [H|H]; auto.
  apply String.eqb_eq in E. subst. auto.
Qed.

Section DiffsLoop.

Variable m : Q.
Variable row : list (string * Q).

(** Every entry of [diffs] comes from a cell whose column name, found by
    [_get_col_name], is that entry's key and contains ["tp"]. *)
Definition diffs_inv (d : list (string * option Q)) : Prop :=
  forall k x, In (k, x) d ->
    contains "tp" k = true /\ exists c, x = Some (c - m) /\ _get_col_name c row = Some k.

Lemma diffs_loop_inv (cells : list (string * Q)) (d out : list (string * option Q)) :
  diffs_loop (Some m) row cells d = Some out -> diffs_inv d -> diffs_inv out.
Proof.
  revert d; induction cells as [|[n c] cells IH]; intros d; simpl.
  - intros H; injection H as <-. tauto.
  - destruct (_get_col_name c row) as [k|] eqn:G; [|discriminate].
    destruct (contains "tp" k) eqn:T; intros H Hinv; apply (IH _ H); [|exact Hinv].
    intros k' x' Hin. apply In_dict_set in Hin as [Heq|Hin].
    + injection Heq as -> ->. split; [exact T|]. exists c. split; [reflexivity | exact G].
    + apply Hinv, Hin.
Qed.

Lemma diffs_loop_keys (cells : list (string * Q)) (d out : list (string * option Q)) :
  diffs_loop (Some m) row cells d = Some out ->
  (forall k, In k (map fst d) -> In k (map fst out)) /\
  (forall n c k, In (n, c) cells -> _get_col_name c row = Some k ->
     contains "tp" k = true -> In k (map fst out)).
Proof.
  revert d; induction cells as [|[n c] cells IH]; intros d; simpl.
  - intros H; injection H as <-. split; [tauto | intros; contradiction].
  - destruct (_get_col_name c row) as [k|] eqn:G; [|discriminate].
    destruct (contains "tp" k) eqn:T; intros H; destruct (IH _ H) as [IH1 IH2];
      split; try (intros k0 Hk0; apply IH1; try apply dict_set_keep; exact Hk0).
    + intros n' c' k' [Heq|Hin] G' T'.
      * injection Heq as -> ->. rewrite G in G'. injection G' as <-.
        apply IH1, dict_set_key.
      * apply (IH2 n' c' k' Hin G' T').
    + intros n' c' k' [Heq|Hin] G' T'.
      * injection Heq as -> ->. rewrite G in G'. injection G' as <-. congruence.
      * apply (IH2 n' c' k' Hin G' T').
Qed.

Lemma diffs_loop_total (cells : list (string * Q)) (d : list (string * option Q)) :
  (forall n c, In (n, c) cells -> In (n, c) row) ->
  exists out, diffs_loop (Some m) row cells d = Some out.
Proof.
  revert d; induction cells as [|[n c] cells IH]; intros d Hc; simpl.
  - eexists; reflexivity.
  - destruct (get_col_name_found c c n row (Hc n c (or_introl eq_refl)) (Qeq_refl c))
      as [k [v' [G _]]].
    rewrite G. destruct (contains "tp" k); apply IH; intros n' c' Hin; apply Hc; right; exact Hin.
Qed.

End DiffsLoop.

Lemma In_positive_diffs (k : string) (q : Q) (d : list (string * option Q)) :
  In (k, q) (positive_diffs d) <-> In (k, Some q) d /\ 0 < q.
Proof.
  induction d as [|[k' [v|]] d IH]; simpl; [tauto| |].
  - destruct (Qltb 0 v) eqn:E; simpl; rewrite IH.
    + apply Qltb_iff in E. split.
      * intros [H|H]; [injection H as -> ->; auto | tauto].
      * intros [[H|H] Hq]; [left; congruence | right; tauto].
    + apply Qltb_false in E. split; [tauto|].
      intros [[H|H] Hq]; [injection H as -> ->; exfalso; apply (Qlt_not_le _ _ Hq E) | tauto].
  - rewrite IH. split; [tauto|]. intros [[H|H] Hq]; [discriminate H | tauto].
Qed.

Lemma min_key_spec (best : string * Q) (rest : list (string * Q)) :
  exists q, In (min_key best rest, q) (best :: rest) /\
    forall k' q', In (k', q') (best :: rest) -> q <= q'.
Proof.
  revert best; induction rest as [|[k v] rest IH]; intros [bk bq]; simpl.
  - exists bq. split; [left; reflexivity|]. intros k' q' [H|[]]. injection H as _ <-. apply Qle_refl.
  - destruct (Qltb v bq) eqn:E.
    + apply Qltb_iff in E. destruct (IH (k, v)) as [q [Hin Hmin]].
      exists q. split.
      * destruct Hin as [H|H]; [right; left; exact H | right; right; exact H].
      * intros k' q' [H|H].
        -- injection H as _ <-. apply Qle_trans with v; [apply (Hmin k v); left; reflexivity|].
           apply Qlt_le_weak, E.
        -- apply (Hmin k'). exact H.
    + apply Qltb_false in E. destruct (IH (bk, bq)) as [q [Hin Hmin]].
      exists q. split.
      * destruct Hin as [H|H]; [left; exact H | right; right; exact H].
      * intros k' q' [H|[H|H]].
        -- apply (Hmin k'). left. exact H.
        -- injection H as _ <-. apply Qle_trans with bq; [apply (Hmin bk); left; reflexivity | exact E].
        -- apply (Hmin k'). right. exact H.
Qed.

Lemma crit_row_names (tps : list (string * option Q)) (avg : option Q) (m : Q) :
  Forall (fun p => contains "tp" (fst p) = true) tps ->
  NoDup (map fst tps) ->
  NoDup (map fst (dropna (tps ++ [("Average", avg); ("Median", Some m)]))).
Proof.
  intros Hf Hd. apply NoDup_dropna. rewrite map_app. apply NoDup_app; [exact Hd| |].
  - simpl. constructor; [simpl; intros [H|[]]; discriminate H|]. constructor; [simpl; tauto|constructor].
  - intros a Ha Hb. apply in_map_iff in Ha as [[k v] [<- Hin]].
    rewrite Forall_forall in Hf. specialize (Hf _ Hin). simpl in Hf, Hb.
    destruct Hb as [Hb|[Hb|[]]]; rewrite <- Hb in Hf; discriminate Hf.
Qed.

Lemma crit_row_tp_entry (tps : list (string * option Q)) (avg : option Q) (m : Q) (k : string) (v : Q) :
  In (k, v) (dropna (tps ++ [("Average", avg); ("Median", Some m)])) ->
  contains "tp" k = true -> In (k, Some v) tps.
Proof.
  intros Hin T. apply In_dropna in Hin. apply in_app_or in Hin as [Hin|[H|[H|[]]]].
  - exact Hin.
  - injection H as <- _. discriminate T.
  - injection H as <- _. discriminate T.
Qed.

Lemma crit_row_tp_name (tps : list (string * option Q)) (avg : option Q) (m : Q) (n : string) (v : Q) :
  Forall (fun p => contains "tp" (fst p) = true) tps ->
  In (n, Some v) tps ->
  exists k, _get_col_name v (dropna (tps ++ [("Average", avg); ("Median", Some m)])) = Some k /\
    contains "tp" k = true.
Proof.
  intros Hf Hin. apply In_dropna in Hin.
  destruct (get_col_name_found v v n _ Hin (Qeq_refl v)) as [k [v' [G Hk]]].
  exists k. split.
  - rewrite dropna_app. apply get_col_name_app_l, G.
  - apply In_dropna in Hk. rewrite Forall_forall in Hf. apply (Hf (k, Some v') Hk).
Qed.

(** ** Claim C1 *)

(** C1: on a storm-grid row laid out as the code builds it (the pivoted
    temporal-pattern columns, whose names contain ["tp"] and are distinct,
    then [Average], then a numeric [Median] [m]), [_get_crit_tp] returns
    ["NA"] when no temporal-pattern value exceeds [m], and otherwise the
    name of a temporal-pattern column whose value [v] exceeds [m] with the
    least excess [v - m] over all such columns; missing cells take no
    part.  On the row [{tp01: 8, tp02: 10, tp03: 12, tp04: 15}] with
    median 10 it returns [tp03]. *)
Theorem get_crit_tp_spec (tps : list (string * option Q)) (avg : option Q) (m : Q) :
  Forall (fun p => contains "tp" (fst p) = true) tps ->
  NoDup (map fst tps) ->
  ((forall n v, In (n, Some v) tps -> v <= m) ->
     _get_crit_tp (tps ++ [("Average", avg); ("Median", Some m)]) = Some "NA") /\
  ((exists n v, In (n, Some v) tps /\ m < v) ->
     exists n v, _get_crit_tp (tps ++ [("Average", avg); ("Median", Some m)]) = Some n /\
       In (n, Some v) tps /\ m < v /\
       forall n' v', In (n', Some v') tps -> m < v' -> v - m <= v' - m) /\
  _get_crit_tp [("tp01", Some 8); ("tp02", Some 10); ("tp03", Some 12); ("tp04", Some 15);
                ("Average", Some (45 # 4)); ("Median", Some 10)] = Some "tp03".
Proof.
  intros Hf Hd.
  set (row := (tps ++ [("Average", avg); ("Median", Some m)])%list).
  set (row' := dropna row).
  assert (Hmed : lookup "Median" row = Some (Some m))
    by (unfold row; rewrite lookup_median_tps by exact Hf; reflexivity).
  assert (Hnd : NoDup (map fst row')) by (apply crit_row_names; assumption).
  destruct (diffs_loop_total m row' row' [] (fun n c H => H)) as [out Hout].
  assert (Hinv : diffs_inv m row' out)
    by (apply (diffs_loop_inv m row' row' [] out Hout); intros k x []).
  destruct (diffs_loop_keys m row' row' [] out Hout) as [_ Hkeys].
  (* every positive or non-positive entry is the excess of a tp value *)
  assert (V : forall k q, In (k, Some q) out -> exists v, In (k, Some v) tps /\ q == v - m).
  { intros k q Hin. destruct (Hinv k _ Hin) as [T [c [Hq G]]].
    injection Hq as ->. destruct (get_col_name_sound _ _ _ G) as [v [Hv Hvc]].
    exists v. split; [apply (crit_row_tp_entry tps avg m k v Hv T)|].
    rewrite Hvc. apply Qeq_refl. }
  (* every tp value has its excess recorded *)
  assert (W : forall n v, In (n, Some v) tps -> exists k q, In (k, Some q) out /\ q == v - m).
  { intros n v Hin.
    destruct (crit_row_tp_name tps avg m n v Hf Hin) as [k [G T]].
    assert (Hcell : In (n, v) row')
      by (unfold row', row; apply In_dropna, in_or_app; left; exact Hin).
    pose proof (Hkeys n v k Hcell G T) as Hk.
    apply in_map_iff in Hk as [[k' x] [Hk' Hx]]. simpl in Hk'. subst k'.
    destruct (Hinv k x Hx) as [_ [c [-> G']]].
    destruct (get_col_name_sound _ _ _ G) as [w1 [H1 E1]].
    destruct (get_col_name_sound _ _ _ G') as [w2 [H2 E2]].
    pose proof (NoDup_map_fst_In row' k w1 w2 Hnd H1 H2) as <-.
    exists k, (c - m). split; [exact Hx|]. rewrite <- E1, <- E2. apply Qeq_refl. }
  unfold _get_crit_tp. fold row. rewrite Hmed. fold row'. rewrite Hout.
  split; [|split].
  - intros Hle. destruct (positive_diffs out) as [|[k q] r] eqn:Hp; [reflexivity|].
    assert (Hin : In (k, q) (positive_diffs out)) by (rewrite Hp; left; reflexivity).
    apply In_positive_diffs in Hin as [Hin Hq].
    destruct (V k q Hin) as [v [Hv Hqv]]. specialize (Hle k v Hv). exfalso. lra.
  - intros [n0 [v0 [Hin0 Hlt0]]].
    assert (Hpos : forall n' v', In (n', Some v') tps -> m < v' ->
                   exists k q, In (k, q) (positive_diffs out) /\ q == v' - m).
    { intros n' v' Hin' Hlt'. destruct (W n' v' Hin') as [k [q [Hk Hq]]].
      exists k, q. split; [apply In_positive_diffs; split; [exact Hk | lra] | exact Hq]. }
    destruct (Hpos n0 v0 Hin0 Hlt0) as [k0 [q0 [Hk0 _]]].
    destruct (positive_diffs out) as [|p r] eqn:Hp; [contradiction Hk0|].
    destruct (min_key_spec p r) as [q [Hq Hmin]].
    rewrite <- Hp in Hq. apply In_positive_diffs in Hq as [Hq Hq0].
    destruct (V _ _ Hq) as [v [Hv Hqv]].
    exists (min_key p r), v. split; [reflexivity|]. split; [exact Hv|]. split; [lra|].
    intros n' v' Hin' Hlt'. destruct (Hpos n' v' Hin' Hlt') as [k' [q' [Hk' Hq']]].
    specialize (Hmin k' q' Hk'). lra.
  - vm_compute. reflexivity.
Qed.

Lemma get_crit_tp_spec_witness :
  _get_crit_tp [("tp01", Some 8); ("tp02", Some 10); ("tp03", Some 12); ("tp04", Some 15);
                ("Average", Some (45 # 4)); ("Median", Some 10)] = Some "tp03" /\
  exists n v, _get_crit_tp ([("tp01", Some 8); ("tp02", Some 10); ("tp03", Some 12); ("tp04", Some 15)]
                             ++ [("Average", Some (45 # 4)); ("Median", Some 10)])%list = Some n /\
    In (n, Some v) [("tp01", Some 8); ("tp02", Some 10); ("tp03", Some 12); ("tp04", Some 15)] /\
    10 < v /\
    forall n' v', In (n', Some v') [("tp01", Some 8); ("tp02", Some 10); ("tp03", Some 12); ("tp04", Some 15)] ->
      10 < v' -> v - 10 <= v' - 10.
Proof.
  assert (Hf : Forall (fun p => contains "tp" (fst p) = true)
                 [("tp01", Some 8); ("tp02", Some 10); ("tp03", Some 12); ("tp04", Some (15:Q))])
    by (repeat constructor).
  assert (Hd : NoDup (map fst [("tp01", Some 8); ("tp02", Some 10); ("tp03", Some 12); ("tp04", Some (15:Q))]))
    by (vm_compute; repeat constructor; simpl; intuition discriminate).
  destruct (get_crit_tp_spec _ (Some (45 # 4)) 10 Hf Hd) as [_ [H2 H3]].
  split; [exact H3|]. apply H2.
  exists "tp03", 12. split; [simpl; auto | reflexivity].
Defined.

(** ** Summaries *)

Definition med_le (bm : Q) (p : label * gcols) : Prop :=
  forall m', g_med (snd p) = Some m' -> m' <= bm.

Definition med_lt (bm : Q) (p : label * gcols) : Prop :=
  forall m', g_med (snd p) = Some m' -> m' < bm.

Lemma idxmax_some (g : grid) (bl : label) (bm : Q) :
  (idxmax (Some (bl, bm)) g = Some bl /\ Forall (med_le bm) g) \/
  (exists pre l r post m,
     g = (pre ++ (l, r) :: post)%list /\ g_med r = Some m /\ bm < m /\
     idxmax (Some (bl, bm)) g = Some l /\
     Forall (med_lt m) pre /\ Forall (med_le m) post).
Proof.
  revert bl bm; induction g as [|[l r] g IH]; intros bl bm.
  - left. split; [reflexivity | constructor].
  - simpl idxmax. destruct (g_med r) as [x|] eqn:Hx; [destruct (Qltb bm x) eqn:E|].
    + apply Qltb_iff in E. right.
      destruct (IH l x) as [[H1 H2]|[pre [l' [r' [post [m [H1 [H2 [H3 [H4 [H5 H6]]]]]]]]]]].
      * exists [], l, r, g, x. repeat split; auto; constructor.
      * exists ((l, r) :: pre)%list, l', r', post, m. repeat split; auto.
        -- rewrite H1. reflexivity.
        -- apply Qlt_trans with x; assumption.
        -- constructor; [|exact H5]. intros m' Hm'. simpl in Hm'. congruence.
    + apply Qltb_false in E.
      destruct (IH bl bm) as [[H1 H2]|[pre [l' [r' [post [m [H1 [H2 [H3 [H4 [H5 H6]]]]]]]]]]].
      * left. split; [exact H1|]. constructor; [|exact H2].
        intros m' Hm'. simpl in Hm'. congruence.
      * right. exists ((l, r) :: pre)%list, l', r', post, m. repeat split; auto.
        -- rewrite H1. reflexivity.
        -- constructor; [|exact H5]. intros m' Hm'. simpl in Hm'.
           rewrite Hx in Hm'. injection Hm' as <-. apply Qle_lt_trans with bm; assumption.
    + destruct (IH bl bm) as [[H1 H2]|[pre [l' [r' [post [m [H1 [H2 [H3 [H4 [H5 H6]]]]]]]]]]].
      * left. split; [exact H1|]. constructor; [|exact H2].
        intros m' Hm'. simpl in Hm'. congruence.
      * right. exists ((l, r) :: pre)%list, l', r', post, m. repeat split; auto.
        -- rewrite H1. reflexivity.
        -- constructor; [|exact H5]. intros m' Hm'. simpl in Hm'. congruence.
Qed.

Lemma idxmax_none (g : grid) :
  (exists l r m, In (l, r) g /\ g_med r = Some m) ->
  exists pre l r post m,
    g = (pre ++ (l, r) :: post)%list /\ g_med r = Some m /\ idxmax None g = Some l /\
    Forall (med_lt m) pre /\ Forall (med_le m) post.
Proof.
  induction g as [|[l r] g IH]; intros [l0 [r0 [m0 [Hin Hm0]]]]; [contradiction|].
  simpl idxmax. destruct (g_med r) as [x|] eqn:Hx.
  - destruct (idxmax_some g l x) as [[H1 H2]|[pre [l' [r' [post [m [H1 [H2 [H3 [H4 [H5 H6]]]]]]]]]]].
    + exists [], l, r, g, x. repeat split; auto; constructor.
    + exists ((l, r) :: pre)%list, l', r', post, m. repeat split; auto.
      * rewrite H1. reflexivity.
      * constructor; [|exact H5]. intros m' Hm'. simpl in Hm'. congruence.
  - destruct Hin as [Heq|Hin]; [injection Heq as -> ->; congruence|].
    destruct (IH (ex_intro _ l0 (ex_intro _ r0 (ex_intro _ m0 (conj Hin Hm0)))))
      as [pre [l' [r' [post [m [H1 [H2 [H3 [H5 H6]]]]]]]]].
    exists ((l, r) :: pre)%list, l', r', post, m. repeat split; auto.
    + rewrite H1. reflexivity.
    + constructor; [|exact H5]. intros m' Hm'. simpl in Hm'. congruence.
Qed.

Lemma label_eqb_eq (a b : label) : label_eqb a b = true <-> a = b.
Proof.
  destruct a as [s|z], b as [s'|z']; simpl; split; intros H; try discriminate H.
  - apply String.eqb_eq in H. congruence.
  - injection H as <-. apply String.eqb_refl.
  - apply Z.eqb_eq in H. congruence.
  - injection H as <-. apply Z.eqb_refl.
Qed.

Lemma filter_label_absent (g : grid) (l : label) :
  ~ In l (map fst g) -> filter (fun p => label_eqb l (fst p)) g = [].
Proof.
  induction g as [|[l' r'] g IH]; intros Hn; [reflexivity|]. simpl.
  destruct (label_eqb l l') eqn:E.
  - apply label_eqb_eq in E. subst. exfalso. apply Hn. left. reflexivity.
  - apply IH. intros H. apply Hn. right. exact H.
Qed.

Lemma loc_row_unique (g : grid) (l : label) (r : gcols) :
  NoDup (map fst g) -> In (l, r) g -> loc_row l g = Some r.
Proof.
  intros Hd Hin. unfold loc_row.
  assert (Hf : filter (fun p => label_eqb l (fst p)) g = [(l, r)]).
  { induction g as [|[l' r'] g IH]; [contradiction|].
    simpl in Hd |- *. inversion Hd as [|? ? Hn Hd']; subst.
    destruct Hin as [Heq|Hin].
    - injection Heq as -> ->. rewrite (proj2 (label_eqb_eq l l) eq_refl).
      rewrite filter_label_absent by exact Hn. reflexivity.
    - destruct (label_eqb l l') eqn:E.
      + apply label_eqb_eq in E. subst. exfalso. apply Hn. apply (in_map fst _ _ Hin).
      + apply IH; assumption. }
  rewrite Hf. reflexivity.
Qed.

Lemma split_colon_app (event rest : string) :
  ~ In ":"%char (list_ascii_of_string event) ->
  split_colon (event ++ String ":"%char rest) = Some (event, rest).
Proof.
  induction event as [|c e IH]; intros Hc; [reflexivity|].
  simpl. destruct (Ascii.eqb c ":") eqn:E.
  - apply Ascii.eqb_eq in E. subst. exfalso. apply Hc. left. reflexivity.
  - rewrite IH by (intros H; apply Hc; right; exact H). reflexivity.
Qed.

Lemma lookup_In {A} (k : string) (v : A) (l : list (string * A)) :
  In (k, v) l -> exists v', lookup k l = Some v'.
Proof.
  induction l as [|[k' v'] l IH]; simpl; [tauto|].
  destruct (String.eqb k k') eqn:E; [eexists; reflexivity|].
  intros [H|H]; [injection H as -> ->; rewrite String.eqb_refl in E; discriminate E | exact (IH H)].
Qed.

Lemma lookup_app_some {A} (k : string) (v : A) (l1 l2 : list (string * A)) :
  lookup k l1 = Some v -> lookup k (l1 ++ l2) = Some v.
Proof.
  induction l1 as [|[k' v'] l1 IH]; simpl; [discriminate|].
  destruct (String.eqb k k'); [tauto | exact IH].
Qed.

(** ** Claim C2 *)

(** C2: for a grid named ["<event>:<rest>"] ([event] without a colon),
    with distinct duration labels, at least one numeric [Median], and each
    row's [Critical TP] either ["NA"] or one of its temporal-pattern
    columns, [summarize_results] picks the row [r] of the first maximal
    [Median] in grid order (every earlier row has a smaller or missing
    median, every later row one at most as large); the critical duration
    is its label, the critical pattern its [Critical TP], the critical
    flow ["NA"] when that is ["NA"] and otherwise the row's value under
    that column; the event is the text before the first colon and the
    location is the rest with ["Max Flow "] removed. *)
Theorem summarize_results_spec (event rest : string) (g : grid) :
  ~ In ":"%char (list_ascii_of_string event) ->
  NoDup (map fst g) ->
  (exists l r m, In (l, r) g /\ g_med r = Some m) ->
  (forall l r, In (l, r) g -> g_crit r = "NA" \/ exists v, In (g_crit r, v) (g_tps r)) ->
  exists s pre r post m,
    summarize_results (event ++ ":" ++ rest) g = Some s /\
    g = (pre ++ (s_duration s, r) :: post)%list /\ g_med r = Some m /\
    Forall (med_lt m) pre /\ Forall (med_le m) post /\
    s_tp s = g_crit r /\
    ((g_crit r = "NA" /\ s_flow s = FlowNA) \/
     (g_crit r <> "NA" /\ exists v, lookup (g_crit r) (g_tps r) = Some v /\ s_flow s = FlowVal v)) /\
    s_event s = event /\ s_po_line s = py_replace "Max Flow " "" rest.
Proof.
  intros Hev Hd Hex Hcrit.
  destruct (idxmax_none g Hex) as [pre [l [r [post [m [Hg [Hm [Hidx [Hpre Hpost]]]]]]]]].
  assert (Hin : In (l, r) g) by (rewrite Hg; apply in_or_app; right; left; reflexivity).
  assert (Hloc : loc_row l g = Some r) by (apply loc_row_unique; assumption).
  assert (Hsp : split_colon (event ++ ":" ++ rest) = Some (event, rest))
    by (apply split_colon_app, Hev).
  unfold summarize_results. rewrite Hidx, Hloc, Hsp.
  destruct (String.eqb (g_crit r) "NA") eqn:E.
  - apply String.eqb_eq in E.
    eexists; exists pre, r, post, m. simpl. repeat split; auto.
  - apply String.eqb_neq in E.
    destruct (Hcrit l r Hin) as [Hna|[v Hv]]; [contradiction|].
    destruct (lookup_In _ _ _ Hv) as [v' Hv'].
    unfold cell_loc. rewrite (lookup_app_some _ _ _ _ Hv').
    eexists; exists pre, r, post, m. simpl. repeat split; auto.
    right. split; [exact E|]. exists v'. split; [exact Hv' | reflexivity].
Qed.

Lemma summarize_results_spec_witness :
  exists s pre r post m,
    summarize_results ("1%" ++ ":" ++ " Max Flow A") sample_grid = Some s /\
    sample_grid = (pre ++ (s_duration s, r) :: post)%list /\ g_med r = Some m /\
    Forall (med_lt m) pre /\ Forall (med_le m) post /\
    s_tp s = g_crit r /\
    ((g_crit r = "NA" /\ s_flow s = FlowNA) \/
     (g_crit r <> "NA" /\ exists v, lookup (g_crit r) (g_tps r) = Some v /\ s_flow s = FlowVal v)) /\
    s_event s = "1%" /\ s_po_line s = py_replace "Max Flow " "" " Max Flow A".
Proof.
  apply summarize_results_spec.
  - simpl. intuition discriminate.
  - simpl. constructor; [simpl; intuition discriminate | constructor; [simpl; tauto | constructor]].
  - exists (LInt 90), {| g_tps := [("tp01", Some 10); ("tp02", Some 12)];
                           g_avg := Some 11; g_med := Some 11; g_crit := "tp02" |}, 11.
    split; [simpl; auto | reflexivity].
  - intros l r [H|[H|[]]]; injection H as <- <-; simpl; auto.
    right. exists (Some 12). simpl. auto.
Defined.

(** ** Duration labels *)

Lemma list_ascii_app (a b : string) :
  list_ascii_of_string (a ++ b) = (list_ascii_of_string a ++ list_ascii_of_string b)%list.
Proof. induction a as [|c a IH]; simpl; [reflexivity | rewrite IH; reflexivity]. Qed.

Lemma digit_char_digit (d : N) : (d < 10)%N -> is_digit (digit_char d) = true.
Proof.
  intros Hd. unfold is_digit, ascii_code, digit_char.
  rewrite nat_ascii_embedding by lia. apply andb_true_intro. split; apply Nat.leb_le; lia.
Qed.

Lemma digit_char_val (d : N) : (d < 10)%N -> digit_val (digit_char d) = d.
Proof.
  intros Hd. unfold digit_val, ascii_code, digit_char.
  rewrite nat_ascii_embedding by lia. lia.
Qed.

Lemma digit_not_space (c : ascii) : is_digit c = true -> is_space c = false.
Proof.
  intros Hc. destruct (is_space c) eqn:E; [|reflexivity].
  unfold is_space in E. apply existsb_exists in E as [c' [Hin Heq]].
  apply Ascii.eqb_eq in Heq. subst c'.
  simpl in Hin. repeat destruct Hin as [<-|Hin]; try discriminate Hc; contradiction.
Qed.

Lemma digit_not_letter (c : ascii) : is_digit c = true -> is_letter c = false.
Proof.
  unfold is_digit, is_letter. intros H. apply andb_true_iff in H as [H1 H2].
  apply Nat.leb_le in H1, H2.
  apply orb_false_intro; apply andb_false_iff;
    left; apply Nat.leb_gt; unfold ascii_code in *; lia.
Qed.

Definition all_digits (l : list ascii) : Prop := Forall (fun c => is_digit c = true) l.

Lemma N_digits_spec (fuel : nat) (n : N) :
  (N.to_nat n < fuel)%nat ->
  let l := list_ascii_of_string (N_digits fuel n) in
  l <> [] /\ all_digits l /\
  fold_left (fun acc c => (acc * 10 + digit_val c)%N) l 0%N = n.
Proof.
  revert n; induction fuel as [|f IH]; intros n Hn; [lia|].
  simpl N_digits. destruct (n <? 10)%N eqn:E.
  - apply N.ltb_lt in E. simpl. split; [discriminate|]. split.
    + constructor; [apply digit_char_digit, E | constructor].
    + rewrite digit_char_val by exact E. lia.
  - apply N.ltb_ge in E.
    assert (Hlt : (n / 10 < n)%N) by (apply N.div_lt; lia).
    destruct (IH (n / 10)%N ltac:(lia)) as [Hne [Hdig Hfold]].
    assert (Hm : (n mod 10 < 10)%N) by (apply N.mod_lt; lia).
    rewrite list_ascii_app. simpl list_ascii_of_string at 2. split; [|split].
    + intros H. apply app_eq_nil in H as [_ H]. discriminate H.
    + apply Forall_app. split; [exact Hdig | constructor; [apply digit_char_digit, Hm | constructor]].
    + rewrite fold_left_app. simpl. rewrite Hfold, digit_char_val by exact Hm.
      pose proof (N.div_mod n 10 ltac:(lia)). lia.
Qed.

Lemma digits_us_all (l : list ascii) (acc : N) (b : bool) :
  all_digits l -> l <> [] ->
  digits_us acc b l = Some (fold_left (fun acc c => (acc * 10 + digit_val c)%N) l acc).
Proof.
  revert acc b; induction l as [|c l IH]; intros acc b Hd Hne; [contradiction|].
  inversion Hd as [|? ? Hc Hd']; subst. simpl. rewrite Hc.
  destruct l as [|c' l]; [reflexivity|]. apply IH; [exact Hd' | discriminate].
Qed.

Lemma strip_letters_digits (s : string) :
  all_digits (list_ascii_of_string s) -> strip_letters s = s.
Proof.
  induction s as [|c s IH]; intros Hd; [reflexivity|].
  inversion Hd as [|? ? Hc Hd']; subst. simpl. rewrite digit_not_letter by exact Hc.
  rewrite IH by exact Hd'. reflexivity.
Qed.

Lemma py_strip_id (l : list ascii) :
  match l with c :: _ => is_space c = false | [] => True end ->
  match rev l with c :: _ => is_space c = false | [] => True end ->
  py_strip l = l.
Proof.
  intros H1 H2. unfold py_strip.
  assert (Hl : lstrip l = l) by (destruct l as [|c l]; simpl; [reflexivity | rewrite H1; reflexivity]).
  rewrite Hl.
  assert (Hr : lstrip (rev l) = rev l)
    by (destruct (rev l) as [|c l']; simpl; [reflexivity | rewrite H2; reflexivity]).
  rewrite Hr. apply rev_involutive.
Qed.

Lemma last_digit (l : list ascii) :
  all_digits l -> match rev l with c :: _ => is_space c = false | [] => True end.
Proof.
  intros Hd. destruct (rev l) as [|c l'] eqn:E; [exact I|].
  apply digit_not_space.
  assert (Hin : In c l) by (apply in_rev; rewrite E; left; reflexivity).
  unfold all_digits in Hd. rewrite Forall_forall in Hd. apply Hd, Hin.
Qed.

(** [int(re.sub("[a-zA-Z]", "", str(z))) == z]. *)
Lemma py_int_str (z : Z) : py_int (strip_letters (py_str (LInt z))) = Some z.
Proof.
  simpl py_str. unfold Z_to_dec.
  destruct z as [|p|p].
  - reflexivity.
  - unfold N_to_dec.
    destruct (N_digits_spec (S (N.to_nat (Z.to_N (Zpos p)))) (Z.to_N (Zpos p)) ltac:(lia))
      as [Hne [Hdig Hfold]].
    rewrite strip_letters_digits by exact Hdig. unfold py_int.
    set (l := list_ascii_of_string _) in *.
    rewrite py_strip_id; [| |apply last_digit, Hdig].
    + destruct l as [|c r] eqn:El; [contradiction|].
      inversion Hdig as [|? ? Hc _]; subst.
      assert (Hp : Ascii.eqb c "+" = false)
        by (destruct (Ascii.eqb_spec c "+") as [->|]; [discriminate Hc | reflexivity]).
      assert (Hm : Ascii.eqb c "-" = false)
        by (destruct (Ascii.eqb_spec c "-") as [->|]; [discriminate Hc | reflexivity]).
      rewrite Hp, Hm, <- El, digits_us_all by (rewrite ?El; assumption).
      rewrite El, Hfold. reflexivity.
    + destruct l as [|c r]; [exact I|]. inversion Hdig; subst. apply digit_not_space. assumption.
  - unfold N_to_dec.
    destruct (N_digits_spec (S (N.to_nat (Npos p))) (Npos p) ltac:(lia)) as [Hne [Hdig Hfold]].
    simpl strip_letters. rewrite strip_letters_digits by exact Hdig. unfold py_int.
    simpl list_ascii_of_string.
    set (l := list_ascii_of_string _) in *.
    rewrite py_strip_id; [|reflexivity|].
    + cbv beta iota. simpl Ascii.eqb. cbv iota.
      rewrite digits_us_all by assumption. simpl. rewrite Hfold. reflexivity.
    + simpl rev. destruct (rev l) as [|c l'] eqn:E; [reflexivity|].
      pose proof (last_digit l Hdig) as H. rewrite E in H. exact H.
Qed.

Definition key_le {A} (p q : Z * A) : Prop := (fst p <= fst q)%Z.

Lemma sorted_keys_of_Sorted {A} (l : list (Z * A)) :
  Sorted key_le l -> sorted_keys (map fst l) = true.
Proof.
  induction 1 as [|a l Hs IH Hhd]; [reflexivity|].
  destruct l as [|b l]; [reflexivity|].
  inversion Hhd as [|? ? Hab]; subst. unfold key_le in Hab.
  simpl map. change (((fst a <=? fst b)%Z && sorted_keys (map fst (b :: l))) = true).
  rewrite IH. apply andb_true_intro. split; [apply Z.leb_le, Hab | reflexivity].
Qed.

Lemma insert_by_key_sorted {A} (x : Z * A) (l : list (Z * A)) :
  Sorted key_le l -> Sorted key_le (insert_by_key x l).
Proof.
  induction 1 as [|a l Hs IH Hhd]; simpl.
  - repeat constructor.
  - destruct (fst x <? fst a)%Z eqn:E.
    + apply Z.ltb_lt in E. constructor; [constructor; assumption|].
      constructor. unfold key_le. lia.
    + apply Z.ltb_ge in E. constructor; [exact IH|].
      destruct l as [|b l]; simpl.
      * constructor. unfold key_le. lia.
      * inversion Hhd as [|? ? Hab]; subst.
        destruct (fst x <? fst b)%Z; constructor; unfold key_le in *; lia.
Qed.

Lemma sort_index_sorted {A} (rows : list (Z * A)) : Sorted key_le (sort_index rows).
Proof.
  unfold sort_index. destruct (sorted_keys (map fst rows)) eqn:E.
  - clear -E. induction rows as [|a rows IH]; [constructor|].
    destruct rows as [|b rows]; [repeat constructor|].
    simpl in E. apply andb_true_iff in E as [Hab E].
    constructor; [apply IH, E|]. constructor. apply Z.leb_le, Hab.
  - assert (Hgen : forall acc, Sorted key_le acc ->
              Sorted key_le (fold_left (fun acc x => insert_by_key x acc) rows acc)).
    { clear E. induction rows as [|a rows IH]; intros acc Hacc; [exact Hacc|].
      simpl. apply IH, insert_by_key_sorted, Hacc. }
    apply Hgen. constructor.
Qed.

Lemma mapM_map_some {A B} (f : A -> option B) (g : A -> B) (l : list A) :
  (forall x, In x l -> f x = Some (g x)) -> mapM f l = Some (map g l).
Proof.
  induction l as [|x l IH]; intros H; [reflexivity|]. simpl.
  rewrite (H x (or_introl eq_refl)), IH by (intros y Hy; apply H; right; exact Hy).
  reflexivity.
Qed.

Lemma drop_sort_duration_int {A} (zdf : list (Z * A)) :
  _drop_sort_duration (map (fun p => (LInt (fst p), snd p)) zdf) =
  Some (map (fun '(z, a) => (LInt z, a)) (sort_index zdf)).
Proof.
  unfold _drop_sort_duration.
  assert (Hm : forall l : list (Z * A),
             mapM (fun '(l, a) =>
                     option_map (fun z => (z, a)) (py_int (strip_letters (py_str l))))
                  (map (fun p => (LInt (fst p), snd p)) l) = Some l).
  { induction l as [|[z a] l IH]; [reflexivity|]. cbn [mapM map fst snd]. rewrite py_int_str, IH. reflexivity. }
  rewrite Hm. reflexivity.
Qed.

Lemma map_LInt_pair {A} (l : list (Z * A)) :
  map (fun '(z, a) => (LInt z, a)) l = map (fun p => (LInt (fst p), snd p)) l.
Proof. apply map_ext. intros [z a]. reflexivity. Qed.

(** ** Claim C10 *)

(** C10: [_drop_sort_duration] returns a frame indexed by [int]s in
    ascending order unchanged, and is idempotent: whenever it succeeds on
    a frame, applying it again to the result gives the same result (so the
    second application in [all_critical_storms] changes nothing). *)
Theorem drop_sort_duration_idempotent {A : Type} :
  (forall zdf : list (Z * A), Sorted key_le zdf ->
     _drop_sort_duration (map (fun p => (LInt (fst p), snd p)) zdf) =
     Some (map (fun p => (LInt (fst p), snd p)) zdf)) /\
  (forall df out : list (label * A),
     _drop_sort_duration df = Some out -> _drop_sort_duration out = Some out).
Proof.
  split.
  - intros zdf Hs. rewrite drop_sort_duration_int, map_LInt_pair. unfold sort_index.
    rewrite sorted_keys_of_Sorted by exact Hs. reflexivity.
  - intros df out H. unfold _drop_sort_duration in H at 1.
    destruct (mapM _ df) as [keyed|]; [|discriminate H]. injection H as <-.
    rewrite map_LInt_pair, drop_sort_duration_int, map_LInt_pair. unfold sort_index at 1.
    rewrite sorted_keys_of_Sorted by apply sort_index_sorted. reflexivity.
Qed.

Lemma drop_sort_duration_idempotent_witness :
  _drop_sort_duration [(LStr "720m", 1%nat); (LStr "90m", 2%nat); (LStr "360m", 3%nat)] =
    Some [(LInt 90, 2%nat); (LInt 360, 3%nat); (LInt 720, 1%nat)] /\
  _drop_sort_duration [(LInt 90, 2%nat); (LInt 360, 3%nat); (LInt 720, 1%nat)] =
    Some [(LInt 90, 2%nat); (LInt 360, 3%nat); (LInt 720, 1%nat)] /\
  _drop_sort_duration (map (fun p => (LInt (fst p), snd p)) [(60%Z, 1%nat); (60%Z, 2%nat)]) =
    Some (map (fun p => (LInt (fst p), snd p)) [(60%Z, 1%nat); (60%Z, 2%nat)]).
Proof.
  assert (H1 : _drop_sort_duration [(LStr "720m", 1%nat); (LStr "90m", 2%nat); (LStr "360m", 3%nat)] =
               Some [(LInt 90, 2%nat); (LInt 360, 3%nat); (LInt 720, 1%nat)])
    by (vm_compute; reflexivity).
  split; [exact H1|]. split.
  - apply (proj2 (@drop_sort_duration_idempotent nat) _ _ H1).
  - apply (proj1 (@drop_sort_duration_idempotent nat)).
    repeat constructor; unfold key_le; simpl; lia.
Defined.

(** ** Claim C8 *)





(** ** Claim C5 *)

Lemma mapM_none {A B} (f : A -> option B) (l : list A) (x : A) :
  In x l -> f x = None -> mapM f l = None.
Proof.
  induction l as [|y l IH]; intros Hin Hf; [contradiction|]. simpl.
  destruct Hin as [<-|Hin]; [rewrite Hf; reflexivity|].
  destruct (f y); [|reflexivity]. rewrite (IH Hin Hf). reflexivity.
Qed.

Lemma unique_aux_In (x : string) (seen l : list string) :
  In x l -> In x seen \/ In x (unique_aux seen l).
Proof.
  revert seen; induction l as [|y l IH]; intros seen Hin; [contradiction|]. simpl.
  destruct (existsb (String.eqb y) seen) eqn:E.
  - destruct Hin as [<-|Hin].
    + left. apply existsb_exists in E as [z [Hz Hyz]]. apply String.eqb_eq in Hyz. subst. exact Hz.
    + apply IH, Hin.
  - destruct Hin as [<-|Hin]; [right; left; reflexivity|].
    destruct (IH (y :: seen) Hin) as [[<-|H]|H]; [right; left; reflexivity | left; exact H | right; right; exact H].
Qed.

Lemma unique_In (x : string) (l : list string) : In x l -> In x (unique l).
Proof. intros H. destruct (unique_aux_In x [] l H) as [[]|H']. exact H'. Qed.

Lemma has_dup_pair_sound (pre mid post : list run) (r1 r2 : run) :
  same_pair r1 r2 = true -> has_dup_pair (pre ++ r1 :: mid ++ r2 :: post)%list = true.
Proof.
  intros Hs. induction pre as [|r pre IH]; simpl.
  - apply orb_true_intro. left. apply existsb_exists. exists r2. split; [|exact Hs].
    apply in_or_app. right. left. reflexivity.
  - rewrite IH. apply orb_true_r.
Qed.

(** C5 (as amended): when the table has a location column and two runs of
    the same event share duration and temporal pattern, the pivot of that
    (location, event) raises, so [all_critical_storms] and the whole
    analysis fail; duration labels that collapse to one integer are not
    rejected: ["60m"] and ["060m"] both become row 60 of the grid and the
    analysis completes. *)
Theorem duplicate_pair_fails_batch (tbl : ensemble) (c : string)
    (pre mid post : list run) (r1 r2 : run) :
  In c (e_cols tbl) -> contains "Max Flow" c = true ->
  e_runs tbl = (pre ++ r1 :: mid ++ r2 :: post)%list ->
  r_event r1 = r_event r2 -> r_duration r1 = r_duration r2 -> r_tp r1 = r_tp r2 ->
  all_critical_storms tbl = None /\ analyse_ensemble tbl = None /\
  (exists grids name g,
     all_critical_storms collapse_table = Some grids /\ In (name, g) grids /\
     length (filter (fun p => label_eqb (LInt 60) (fst p)) g) = 2%nat /\
     analyse_ensemble collapse_table <> None).
Proof.
  intros Hc Hmf Hruns He Hd Ht.
  set (e := r_event r1).
  set (rows := filter (fun r => String.eqb (r_event r) e) (e_runs tbl)).
  assert (Hrows : rows = (filter (fun r => String.eqb (r_event r) e) pre ++
                         r1 :: filter (fun r => String.eqb (r_event r) e) mid ++
                         r2 :: filter (fun r => String.eqb (r_event r) e) post)%list).
  { unfold rows. rewrite Hruns, filter_app. simpl.
    rewrite String.eqb_refl, filter_app. simpl. rewrite <- He. fold e. rewrite String.eqb_refl.
    reflexivity. }
  assert (Hdup : has_dup_pair rows = true).
  { rewrite Hrows. apply has_dup_pair_sound. unfold same_pair.
    rewrite Hd, Ht, !String.eqb_refl. reflexivity. }
  assert (Hslice : In (c, rows) (slices tbl)).
  { unfold slices. apply in_concat. eexists. split.
    - apply in_map_iff. exists c. split; [reflexivity|]. apply filter_In. split; assumption.
    - apply in_map_iff. exists e. split; [reflexivity|]. apply unique_In, in_map.
      rewrite Hruns. apply in_or_app. right. left. reflexivity. }
  assert (Hnone : _tp_vs_max_flow_df c rows = None).
  { unfold _tp_vs_max_flow_df. rewrite Hrows at 1.
    destruct (filter (fun r => String.eqb (r_event r) e) pre) as [|r0 l0]; simpl;
      unfold pivot; rewrite Hdup; reflexivity. }
  assert (Hall : all_critical_storms tbl = None).
  { unfold all_critical_storms. eapply mapM_none; [exact Hslice|]. simpl. rewrite Hnone. reflexivity. }
  split; [exact Hall|]. split; [unfold analyse_ensemble; rewrite Hall; reflexivity|].
  vm_compute. eexists; eexists; eexists. split; [reflexivity|].
  split; [left; reflexivity|]. split; [reflexivity|]. discriminate.
Qed.

Lemma duplicate_pair_fails_batch_witness :
  all_critical_storms
    {| e_cols := ["Max Flow A"]; e_runs := [sample_run "60m" "tp01" 5; sample_run "60m" "tp01" 7] |}
    = None.
Proof.
  apply (duplicate_pair_fails_batch _ "Max Flow A" [] [] [] (sample_run "60m" "tp01" 5)
           (sample_run "60m" "tp01" 7)); try reflexivity.
  left. reflexivity.
Defined.

(** C5 counterexample: the labels ["60m"] and ["060m"] collapse to 60, yet
    the analysis of the table succeeds. *)
Lemma collapsed_durations_counterexample :
  (exists grids name g,
     all_critical_storms collapse_table = Some grids /\ In (name, g) grids /\
     length (filter (fun p => label_eqb (LInt 60) (fst p)) g) = 2%nat) /\
  analyse_ensemble collapse_table <> None.
Proof.
  split; [|vm_compute; discriminate].
  vm_compute. eexists; eexists; eexists. split; [reflexivity|]. split; [left; reflexivity | reflexivity].
Qed.

(* ------------------------------------------------------------------ *)
(** ** Reading a PO file *)

Lemma first_index_aux_range (file : csv_file) : forall i k,
  first_index_aux i file = Some k -> (i <= k < i + length file)%nat.
Proof.
  induction file as [|row r IH]; intros i k H; cbn [first_index_aux] in H; [discriminate|].
  destruct (existsb (String.eqb "Flow") row).
  - injection H as <-. simpl. lia.
  - apply IH in H. simpl. lia.
Qed.

Lemma filter_all {A} (f : A -> bool) (l : list A) :
  forallb f l = true -> filter f l = l.
Proof.
  induction l as [|x r IH]; simpl; [reflexivity|].
  intros H. apply andb_true_iff in H as [Hx Hr]. rewrite Hx, IH; auto.
Qed.











Lemma first_index_aux_spec (file : csv_file) : forall i k,
  first_index_aux i file = Some k ->
  (exists row, nth_error file (k - i) = Some row /\ In "Flow" row) /\
  (forall j row, (j < k - i)%nat -> nth_error file j = Some row -> ~ In "Flow" row).
Proof.
  induction file as [|row r IH]; intros i k H; cbn [first_index_aux] in H; [discriminate|].
  destruct (existsb (String.eqb "Flow") row) eqn:E.
  - injection H as <-. rewrite Nat.sub_diag. split.
    + exists row. split; [reflexivity|].
      apply existsb_exists in E as [x [Hx Hxe]]. apply String.eqb_eq in Hxe. subst x. exact Hx.
    + intros j row' Hj. lia.
  - pose proof (first_index_aux_range r (S i) k H) as Hr.
    destruct (IH (S i) k H) as [[row' [Hn Hf]] Hb].
    replace (k - i)%nat with (S (k - S i)) by lia. split.
    + exists row'. split; [exact Hn | exact Hf].
    + intros [|j] row'' Hj Hn'.
      * cbn in Hn'. injection Hn' as <-. intros Hin.
        assert (existsb (String.eqb "Flow") row = true) by (apply existsb_exists; exists "Flow"; split; [exact Hin | apply String.eqb_refl]).
        congruence.
      * apply (Hb j); [lia | exact Hn'].
Qed.








(* ------------------------------------------------------------------ *)
(** ** Copying and filtering the inputs *)

Fixpoint noslash (s : string) : bool :=
  match s with
  | EmptyString => true
  | String c r => negb (Ascii.eqb c "/") && noslash r
  end.

Lemma noslash_app (a b : string) : noslash (a ++ b) = noslash a && noslash b.
Proof. induction a as [|c r IH]; simpl; [reflexivity|]. rewrite IH, andb_assoc. reflexivity. Qed.

Lemma basename_aux_noslash (s : string) : forall cur,
  noslash cur = true -> noslash (basename_aux cur s) = true.
Proof.
  induction s as [|c r IH]; intros cur H; simpl; [exact H|].
  destruct (Ascii.eqb c "/") eqn:E; apply IH; [reflexivity|].
  rewrite noslash_app, H. simpl. rewrite E. reflexivity.
Qed.

Lemma basename_aux_of_noslash (s : string) : forall cur,
  noslash s = true -> basename_aux cur s = cur ++ s.
Proof.
  induction s as [|c r IH]; intros cur H; simpl in *.
  - symmetry. apply str_app_nil_r.
  - apply andb_true_iff in H as [Hc Hr]. apply negb_true_iff in Hc. rewrite Hc, IH by exact Hr.
    rewrite <- str_app_assoc. reflexivity.
Qed.

Lemma basename_noslash (p : string) : noslash (basename p) = true.
Proof. apply basename_aux_noslash. reflexivity. Qed.

(** The copy ["_local/" ++ basename p] keeps the basename of [p]. *)
Lemma basename_local (p : string) : basename ("_local/" ++ basename p) = basename p.
Proof.
  unfold basename at 1. cbn [basename_aux append Ascii.eqb Ascii.ascii_dec].
  simpl. apply basename_aux_of_noslash, basename_noslash.
Qed.

(** C6 (code bug).  A file holding one non-blank header line and no data
    row is not dropped by [copy_po_csvs]: its copy is kept and
    [_skipped_inputs] reports nothing.  In a batch with a well-formed file,
    such a header-only file makes the peak extraction fail, so the batch
    aborts, while the well-formed file alone goes through. *)
Theorem header_only_file_kept (p : string) (hdr : list string) :
  nonblank hdr = true ->
  copy_po_csvs [(p, [hdr])] = Some ["_local/" ++ basename p] /\
  _skipped_inputs [p] ["_local/" ++ basename p] = [] /\
  max_flows_batch [("in/Ex_1%_60m_tp01_PO.csv", header_only_file);
                   ("in/Ex_1%_90m_tp01_PO.csv", sample_po_file)] = None /\
  max_flows_batch [("in/Ex_1%_90m_tp01_PO.csv", sample_po_file)] <> None.
Proof.
  intros Hb. split; [|split; [|split]].
  - unfold copy_po_csvs, local_store. cbn [fold_left dict_set map mapM].
    rewrite basename_local. cbn [lookup]. rewrite String.eqb_refl.
    cbn [_header_length]. unfold read_csv. cbn [filter]. rewrite Hb.
    destruct (map (pad_row (length hdr - 1)) [hdr]); reflexivity.
  - unfold _skipped_inputs. cbn [map filter]. rewrite basename_local.
    cbn [existsb]. rewrite String.eqb_refl. reflexivity.
  - vm_compute. reflexivity.
  - vm_compute. discriminate.
Qed.

Lemma header_only_file_kept_witness :
  nonblank ["Name"; "Time"; "Flow"] = true /\
  copy_po_csvs [("results/Ex_1%_60m_tp01_PO.csv", header_only_file)]
    = Some ["_local/" ++ basename "results/Ex_1%_60m_tp01_PO.csv"] /\
  _skipped_inputs ["results/Ex_1%_60m_tp01_PO.csv"]
                  ["_local/" ++ basename "results/Ex_1%_60m_tp01_PO.csv"] = [].
Proof.
  split; [reflexivity|].
  destruct (header_only_file_kept "results/Ex_1%_60m_tp01_PO.csv" ["Name"; "Time"; "Flow"]
              eq_refl) as [H1 [H2 _]].
  split; [exact H1 | exact H2].
Defined.

(* ------------------------------------------------------------------ *)
(** ** Peak flows *)

Lemma num_leb_refl (a : num) : num_leb a a = true.
Proof. destruct a as [q|[|]]; simpl; auto. apply Qle_bool_iff, Qle_refl. Qed.

Lemma num_leb_trans (a b c : num) :
  num_leb a b = true -> num_leb b c = true -> num_leb a c = true.
Proof.
  destruct a as [x|[|]], b as [y|[|]], c as [z|[|]]; simpl; auto; try discriminate.
  rewrite !Qle_bool_iff. apply Qle_trans.
Qed.

Lemma num_leb_total (a b : num) : num_leb a b = false -> num_leb b a = true.
Proof.
  destruct a as [x|[|]], b as [y|[|]]; simpl; auto; try discriminate.
  intros H. apply Qle_bool_iff. destruct (Qlt_le_dec y x) as [Hlt|Hle].
  - apply Qlt_le_weak, Hlt.
  - apply Qle_bool_iff in Hle. congruence.
Qed.

Lemma max_step_le (acc : option num) (c : cell) (a : num) :
  acc = Some a -> exists m, max_step acc c = Some m /\ num_leb a m = true.
Proof.
  intros ->. unfold max_step. destruct (to_numeric c) as [v|].
  - destruct (num_leb a v) eqn:E; eexists; split; eauto using num_leb_refl.
  - eexists; split; eauto using num_leb_refl.
Qed.

Lemma max_step_new (acc : option num) (c : cell) (v : num) :
  to_numeric c = Some v -> exists m, max_step acc c = Some m /\ num_leb v m = true.
Proof.
  intros Hv. unfold max_step. rewrite Hv. destruct acc as [a|].
  - destruct (num_leb a v) eqn:E; eexists; split; eauto using num_leb_refl, num_leb_total.
  - eexists; split; eauto using num_leb_refl.
Qed.

Lemma fold_max_none (cells : list cell) : forall acc,
  fold_left max_step cells acc = None <->
  acc = None /\ Forall (fun c => to_numeric c = None) cells.
Proof.
  induction cells as [|c r IH]; intros acc; simpl.
  - split; [intros H; split; auto | intros [H _]; exact H].
  - rewrite IH. unfold max_step at 1. rewrite Forall_cons_iff.
    destruct (to_numeric c) as [v|]; destruct acc as [a|]; split; intros H;
      repeat match goal with
             | H : _ /\ _ |- _ => destruct H
             end; try discriminate; auto.
Qed.

Lemma fold_max_upper (cells : list cell) : forall acc v,
  fold_left max_step cells acc = Some v ->
  (forall a, acc = Some a -> num_leb a v = true) /\
  (forall c v', In c cells -> to_numeric c = Some v' -> num_leb v' v = true).
Proof.
  induction cells as [|c r IH]; intros acc v H; simpl in H.
  - split; [intros a ->; injection H as ->; apply num_leb_refl | intros ? ? []].
  - destruct (IH _ _ H) as [Hacc Hr]. split.
    + intros a Ha. destruct (max_step_le acc c a Ha) as [m [Hm Ham]].
      eapply num_leb_trans; [exact Ham | apply Hacc, Hm].
    + intros c' v' [<-|Hin] Hv.
      * destruct (max_step_new acc c v' Hv) as [m [Hm Hvm]].
        eapply num_leb_trans; [exact Hvm | apply Hacc, Hm].
      * eapply Hr; eauto.
Qed.

Lemma fold_max_attained (cells : list cell) : forall acc v,
  fold_left max_step cells acc = Some v ->
  acc = Some v \/ exists c, In c cells /\ to_numeric c = Some v.
Proof.
  induction cells as [|c r IH]; intros acc v H; simpl in H; [left; exact H|].
  destruct (IH _ _ H) as [Hs|[c' [Hin Hv]]]; [|right; exists c'; simpl; auto].
  unfold max_step in Hs. destruct (to_numeric c) as [w|] eqn:Ew; [|left; exact Hs].
  destruct acc as [a|].
  - destruct (num_leb a w); injection Hs as <-; [right; exists c; simpl; auto | left; reflexivity].
  - injection Hs as <-. right. exists c. simpl. auto.
Qed.

Lemma mapM_length {A B} (f : A -> option B) (l : list A) (l' : list B) :
  mapM f l = Some l' -> length l' = length l.
Proof.
  revert l'; induction l as [|x r IH]; intros l' H; simpl in H.
  - injection H as <-. reflexivity.
  - destruct (f x); [|discriminate]. destruct (mapM f r) as [ys|] eqn:E; [|discriminate].
    injection H as <-. simpl. rewrite (IH ys eq_refl). reflexivity.
Qed.

Lemma map_snd_combine {A B} (l1 : list A) (l2 : list B) :
  length l1 = length l2 -> map snd (combine l1 l2) = l2.
Proof.
  revert l2; induction l1 as [|x r IH]; intros [|y l2] H; simpl in *; try discriminate; auto.
  rewrite IH; auto.
Qed.

(** C7.  Whenever the peak extractor returns a row, its peaks are, in
    order, the maxima [col_max] of the columns whose label contains "Flow".
    Each cell is coerced by [to_numeric], a total function (a cell that is
    not a number is NaN, nothing raises).  [col_max] is NaN exactly when
    every cell is NaN; otherwise it is the value of one of the cells and no
    other cell's value is above it.  For one flow column [3, 7, NaN, 2] the
    peak is 7. *)
Theorem get_all_max_flows_peaks (t : po_table) (pr : peak_row) :
  _get_all_max_flows t = Some pr ->
  map snd (p_flows pr) = map col_max (flow_columns t) /\
  Forall (fun col =>
            (col_max col = None <-> Forall (fun c => to_numeric c = None) col) /\
            forall v, col_max col = Some v ->
              (exists c, In c col /\ to_numeric c = Some v) /\
              (forall c v', In c col -> to_numeric c = Some v' -> num_leb v' v = true))
         (flow_columns t) /\
  option_map (fun r => map snd (p_flows r)) (_get_all_max_flows peak_table)
    = Some [Some (NFin 7)].
Proof.
  intros H. split; [|split].
  - unfold _get_all_max_flows in H.
    destruct (_get_po_lines t) as [lines|] eqn:El; [|discriminate].
    destruct (_parse_run_id (t_name t)) as [[[st d] tp]|]; [|discriminate].
    injection H as <-. cbn [p_flows]. apply map_snd_combine.
    rewrite length_map, length_map. exact (mapM_length _ _ _ El).
  - apply Forall_forall. intros col _. split.
    + unfold col_max. rewrite fold_max_none. split; [intros [_ Hf]; exact Hf | intros Hf; auto].
    + intros v Hv. split.
      * destruct (fold_max_attained col None v Hv) as [Hn|Hc]; [discriminate | exact Hc].
      * apply (fold_max_upper col None v Hv).
  - vm_compute. reflexivity.
Qed.

Lemma get_all_max_flows_peaks_witness :
  exists pr, _get_all_max_flows peak_table = Some pr /\
    map snd (p_flows pr) = map col_max (flow_columns peak_table).
Proof.
  assert (H : _get_all_max_flows peak_table =
              Some (Build_peak_row "ex_1%_60m_tp01_PO.csv" "1%" "60m" "tp01"
                                   [("Max Flow 3", Some (NFin 7))]))
    by (vm_compute; reflexivity).
  eexists. split; [exact H | exact (proj1 (get_all_max_flows_peaks peak_table _ H))].
Defined.

(* ================================================================== *)
(** * Further properties of the code *)

(* ------------------------------------------------------------------ *)
(** ** Paths *)

Lemma basename_aux_app_slash (s : string) : forall cur t,
  basename_aux cur (s ++ String "/" t) = basename_aux EmptyString t.
Proof.
  induction s as [|c s IH]; intros cur t; [reflexivity|].
  cbn [append basename_aux]. destruct (Ascii.eqb c "/"); apply IH.
Qed.

Lemma ends_slash_split (a : string) :
  ends_slash a = true -> exists a', a = a' ++ String "/" EmptyString.
Proof.
  induction a as [|c a IH]; [discriminate|].
  destruct a as [|c' a'].
  - cbn [ends_slash]. intros H. apply Ascii.eqb_eq in H. subst. exists EmptyString. reflexivity.
  - intros H. destruct (IH H) as [a'' Ha]. exists (String c a''). rewrite Ha. reflexivity.
Qed.

Lemma noslash_prefixb (s : string) : noslash s = true -> prefixb "/" s = false.
Proof.
  destruct s as [|c r]; [reflexivity|]. cbn [noslash prefixb].
  intros H. apply andb_true_iff in H as [H _]. apply negb_true_iff in H.
  destruct (Ascii.eqb "/" c) eqn:E; [|reflexivity].
  apply Ascii.eqb_eq in E. subst. discriminate H.
Qed.

(** [os.path.join(a, f)] for a name without ['/'] is [a], a separator
    when [a] needs one, then [f]. *)
Lemma os_path_join_shape (a f : string) :
  noslash f = true ->
  exists sep, os_path_join a f = a ++ sep ++ f /\
    ((sep = EmptyString /\ (a = EmptyString \/ ends_slash a = true)) \/
     sep = String "/" EmptyString).
Proof.
  intros Hf. unfold os_path_join. rewrite noslash_prefixb by exact Hf.
  destruct (String.eqb a EmptyString) eqn:E1.
  - exists EmptyString. split; [reflexivity|]. left. split; [reflexivity|].
    left. apply String.eqb_eq, E1.
  - destruct (ends_slash a) eqn:E2; cbn [orb].
    + exists EmptyString. split; [reflexivity|]. left. auto.
    + exists (String "/" EmptyString). split; [reflexivity|]. right. reflexivity.
Qed.

Lemma basename_of_noslash (f : string) : noslash f = true -> basename f = f.
Proof. intros H. unfold basename. apply basename_aux_of_noslash, H. Qed.

Lemma basename_join (a f : string) : noslash f = true -> basename (os_path_join a f) = f.
Proof.
  intros Hf. destruct (os_path_join_shape a f Hf) as [sep [-> [[-> [->|Ha]]| ->]]].
  - apply basename_of_noslash, Hf.
  - destruct (ends_slash_split a Ha) as [a' ->]. cbn [append].
    rewrite <- str_app_assoc. cbn [append]. unfold basename.
    rewrite basename_aux_app_slash. apply basename_aux_of_noslash, Hf.
  - unfold basename. cbn [append]. rewrite basename_aux_app_slash.
    apply basename_aux_of_noslash, Hf.
Qed.

Lemma valid_filename_noslash (name : string) : noslash (_str_to_valid_filename name) = true.
Proof.
  induction name as [|c r IH]; [reflexivity|].
  rewrite str_to_valid_filename_cons. cbn [noslash]. rewrite IH, andb_true_r.
  destruct (existsb (Ascii.eqb c) _) eqn:E; [reflexivity|].
  destruct (Ascii.eqb c "/") eqn:E2; [|reflexivity].
  apply Ascii.eqb_eq in E2. subst. discriminate E.
Qed.

(** [get_po_csvs] lists, in the order of [os.listdir], the directory entries
    whose lower-cased name contains "_po.csv": the basenames of the paths
    it returns are exactly those entries (directory entries never contain
    ['/']). *)
Theorem get_po_csvs_basenames (input_dir : string) (listing : list string) :
  Forall (fun f => noslash f = true) listing ->
  map basename (get_po_csvs input_dir listing) =
  filter (fun file => contains "_po.csv" (str_lower file)) listing.
Proof.
  intros Hl. unfold get_po_csvs. rewrite map_map.
  rewrite <- (map_id (filter _ listing)) at 2. apply map_ext_in.
  intros f Hin. apply filter_In in Hin as [Hin _].
  apply basename_join. rewrite Forall_forall in Hl. apply Hl, Hin.
Qed.

Lemma get_po_csvs_basenames_witness :
  map basename (get_po_csvs "results/run" ["a_PO.csv"; "log.txt"; "B_po.CSV"])
  = ["a_PO.csv"; "B_po.CSV"].
Proof.
  rewrite (get_po_csvs_basenames "results/run" ["a_PO.csv"; "log.txt"; "B_po.CSV"]);
    [reflexivity | repeat constructor].
Defined.

(** [plot_results] writes its figure directly inside [output_path]: the
    path is [output_path], a separator when needed, the cleaned name (which
    holds no ['/']) and ".png", so its basename is the cleaned name with
    ".png" whatever the grid name. *)
Theorem plot_filepath_in_output (output_path name : string) :
  noslash (_str_to_valid_filename name) = true /\
  basename (plot_filepath output_path name) = _str_to_valid_filename name ++ ".png" /\
  exists sep, plot_filepath output_path name =
              output_path ++ sep ++ _str_to_valid_filename name ++ ".png" /\
              (sep = EmptyString \/ sep = String "/" EmptyString).
Proof.
  pose proof (valid_filename_noslash name) as Hn.
  assert (Hp : noslash (_str_to_valid_filename name ++ ".png") = true).
  { rewrite noslash_app, Hn. reflexivity. }
  assert (Hj : plot_filepath output_path name
               = os_path_join output_path (_str_to_valid_filename name ++ ".png")).
  { unfold plot_filepath, os_path_join.
    rewrite (noslash_prefixb _ Hn), (noslash_prefixb _ Hp).
    destruct (String.eqb output_path EmptyString || ends_slash output_path);
      rewrite <- !str_app_assoc; reflexivity. }
  split; [exact Hn|]. split.
  - rewrite Hj. apply basename_join, Hp.
  - rewrite Hj. destruct (os_path_join_shape output_path _ Hp) as [sep [Hs Hsep]].
    exists sep. split; [exact Hs|]. destruct Hsep as [[-> _]| ->]; auto.
Qed.

(** [_str_to_valid_filename] is idempotent: a cleaned name is left as it is. *)
Theorem str_to_valid_filename_idempotent (name : string) :
  _str_to_valid_filename (_str_to_valid_filename name) = _str_to_valid_filename name.
Proof.
  induction name as [|c r IH]; [reflexivity|].
  rewrite !str_to_valid_filename_cons, IH. f_equal.
  destruct (existsb (Ascii.eqb c) _) eqn:E; [reflexivity|]. rewrite E. reflexivity.
Qed.

(* ------------------------------------------------------------------ *)
(** ** The local copies and the skipped inputs *)

Lemma lookup_dict_set_same {A} (k : string) (v : A) (d : list (string * A)) :
  lookup k (dict_set k v d) = Some v.
Proof.
  induction d as [|[k0 v0] d IH]; cbn [dict_set lookup].
  - rewrite String.eqb_refl. reflexivity.
  - destruct (String.eqb k k0) eqn:E; cbn [lookup].
    + rewrite String.eqb_refl. reflexivity.
    + rewrite E. exact IH.
Qed.

Lemma lookup_dict_set_other {A} (k k' : string) (v : A) (d : list (string * A)) :
  String.eqb k' k = false -> lookup k' (dict_set k v d) = lookup k' d.
Proof.
  intros Hk. induction d as [|[k0 v0] d IH]; cbn [dict_set lookup].
  - rewrite Hk. reflexivity.
  - destruct (String.eqb k k0) eqn:E; cbn [lookup].
    + apply String.eqb_eq in E. subst. rewrite Hk. reflexivity.
    + destruct (String.eqb k' k0); [reflexivity | exact IH].
Qed.

Lemma store_lookup_total (inputs : list (string * csv_file)) : forall st p,
  In p (map fst inputs) \/ (exists f, lookup (basename p) st = Some f) ->
  exists f, lookup (basename p) (fold_left (fun st '(p, f) => dict_set (basename p) f st) inputs st)
            = Some f.
Proof.
  induction inputs as [|[p0 f0] inputs IH]; intros st p H; cbn [fold_left map fst] in *.
  - destruct H as [[]|H]; exact H.
  - apply IH. destruct H as [[<-|Hin]|[f Hf]]; [right | left; exact Hin | right].
    + exists f0. apply lookup_dict_set_same.
    + destruct (String.eqb (basename p) (basename p0)) eqn:E.
      * apply String.eqb_eq in E. rewrite E. exists f0. apply lookup_dict_set_same.
      * exists f. rewrite lookup_dict_set_other by exact E. exact Hf.
Qed.

Lemma mapM_None_iff {A B} (g : A -> option B) (l : list A) :
  mapM g l = None <-> exists x, In x l /\ g x = None.
Proof.
  induction l as [|x r IH]; cbn [mapM].
  - split; [discriminate | intros [? [[] _]]].
  - destruct (g x) as [y|] eqn:Eg.
    + destruct (mapM g r) eqn:Er.
      * split; [discriminate|]. intros [z [[<-|Hz] Hgz]]; [congruence|].
        assert (Hn : Some l = None) by (apply IH; exists z; auto). discriminate.
      * split; [intros _|reflexivity]. destruct (proj1 IH eq_refl) as [z [Hz Hgz]].
        exists z. simpl. auto.
    + split; [intros _; exists x; simpl; auto | reflexivity].
Qed.

Lemma mapM_concat_In {A B} (g : A -> option (list B)) (l : list A) (ys : list (list B)) (z : B) :
  mapM g l = Some ys ->
  (In z (concat ys) <-> exists x y, In x l /\ g x = Some y /\ In z y).
Proof.
  revert ys; induction l as [|x r IH]; intros ys H; cbn [mapM] in H.
  - injection H as <-. simpl. split; [intros []|intros [? [? [[] _]]]].
  - destruct (g x) as [y|] eqn:Eg; [|discriminate].
    destruct (mapM g r) as [ys'|] eqn:Er; [|discriminate]. injection H as <-.
    cbn [concat]. rewrite in_app_iff, (IH ys' eq_refl). split.
    + intros [Hz|[x' [y' [Hx' [Hg Hz]]]]].
      * exists x, y. simpl. auto.
      * exists x', y'. simpl. auto.
    + intros [x' [y' [[<-|Hx'] [Hg Hz]]]].
      * left. congruence.
      * right. exists x', y'. auto.
Qed.

Lemma read_csv_none (w : nat) (f : csv_file) : read_csv w f = None <-> filter nonblank f = [].
Proof. unfold read_csv. destruct (filter nonblank f); split; congruence. Qed.

Lemma skipped_inputs_In (raw saved : list string) (b : string) :
  In b (_skipped_inputs raw saved) <-> In b (map basename raw) /\ ~ In b (map basename saved).
Proof.
  unfold _skipped_inputs. rewrite filter_In, negb_true_iff. split.
  - intros [Hr Hs]. split; [exact Hr|]. intros Hin.
    assert (Ht : existsb (String.eqb b) (map basename saved) = true).
    { apply existsb_exists. exists b. split; [exact Hin | apply String.eqb_refl]. }
    congruence.
  - intros [Hr Hs]. split; [exact Hr|].
    destruct (existsb (String.eqb b) _) eqn:E; [|reflexivity].
    apply existsb_exists in E as [b' [Hb' Heq]]. apply String.eqb_eq in Heq. subst. contradiction.
Qed.

(** An input is reported as skipped exactly when the copy it ends up as
    (the last input with the same basename wins) holds blank lines only;
    in particular a file with a header line and no data is never skipped. *)
Theorem copy_po_csvs_skipped (inputs : list (string * csv_file)) (saved : list string) :
  copy_po_csvs inputs = Some saved ->
  forall p, In p (map fst inputs) ->
    (In (basename p) (_skipped_inputs (map fst inputs) saved) <->
     exists f, lookup (basename p) (local_store inputs) = Some f /\ filter nonblank f = []).
Proof.
  intros Hc p Hp. rewrite skipped_inputs_In.
  unfold copy_po_csvs in Hc. cbv zeta in Hc.
  set (g := fun path : string => _) in Hc.
  destruct (mapM g _) as [kept|] eqn:Em; [|discriminate]. injection Hc as <-.
  destruct (store_lookup_total inputs [] p (or_introl Hp)) as [f Hf].
  fold (local_store inputs) in Hf.
  assert (Hb : In (basename p) (map basename (map fst inputs))) by (apply in_map, Hp).
  split.
  - intros [_ Hns]. exists f. split; [exact Hf|].
    destruct (filter nonblank f) as [|row rows] eqn:Ef; [reflexivity|]. exfalso. apply Hns.
    apply in_map_iff. exists ("_local/" ++ basename p). split; [apply basename_local|].
    apply (mapM_concat_In g _ kept _ Em). exists ("_local/" ++ basename p), ["_local/" ++ basename p].
    split; [|split; [|left; reflexivity]].
    + apply in_map_iff in Hp as [[p' f'] [Hp' Hin]]. cbn [fst] in Hp'. subst p'.
      apply in_map_iff. exists (p, f'). split; [reflexivity | exact Hin].
    + unfold g. rewrite basename_local, Hf.
      destruct f as [|l0 f0]; [discriminate|]. cbn [_header_length].
      destruct (read_csv (length l0 - 1) (l0 :: f0)) eqn:Er; [reflexivity|].
      apply read_csv_none in Er. congruence.
  - intros [f' [Hf' Hnb]]. rewrite Hf in Hf'. injection Hf' as <-.
    split; [exact Hb|]. intros Hin. apply in_map_iff in Hin as [x [Hx Hxs]].
    apply (mapM_concat_In g _ kept _ Em) in Hxs as [path [y [Hpath [Hg Hy]]]].
    apply in_map_iff in Hpath as [[p' f'] [<- _]].
    unfold g in Hg. rewrite basename_local in Hg.
    destruct (lookup (basename p') (local_store inputs)) as [f''|] eqn:El; [|discriminate].
    destruct (_header_length f''); [|discriminate].
    destruct (read_csv _ f'') eqn:Er; injection Hg as <-; [|contradiction].
    destruct Hy as [Hy|[]]. pose proof (basename_local p') as Hbl. cbn [append] in Hbl.
    rewrite <- Hy, Hbl in Hx. rewrite Hx in El.
    rewrite Hf in El. injection El as <-.
    assert (Hs : read_csv (n - 1) f = None) by (apply read_csv_none, Hnb). congruence.
Qed.

Lemma copy_po_csvs_skipped_witness :
  let inputs := [("in/a_PO.csv", header_only_file); ("in/b_PO.csv", [[]; []])] in
  copy_po_csvs inputs = Some ["_local/a_PO.csv"] /\
  (In "b_PO.csv" (_skipped_inputs (map fst inputs) ["_local/a_PO.csv"]) <->
   exists f, lookup (basename "in/b_PO.csv") (local_store inputs) = Some f /\ filter nonblank f = []).
Proof.
  intros inputs. assert (H : copy_po_csvs inputs = Some ["_local/a_PO.csv"]) by reflexivity.
  split; [exact H|].
  exact (copy_po_csvs_skipped inputs _ H "in/b_PO.csv" (or_intror (or_introl eq_refl))).
Defined.

(** The copy step aborts (an uncaught [StopIteration]) exactly when one of
    the copies it reads is a 0-byte file. *)
Theorem copy_po_csvs_none (inputs : list (string * csv_file)) :
  copy_po_csvs inputs = None <->
  exists p, In p (map fst inputs) /\ lookup (basename p) (local_store inputs) = Some [].
Proof.
  unfold copy_po_csvs. cbv zeta. set (g := fun path : string => _).
  assert (Hm : mapM g (map (fun '(p, _) => "_local/" ++ basename p) inputs) = None <->
               exists p, In p (map fst inputs) /\ lookup (basename p) (local_store inputs) = Some []).
  { rewrite mapM_None_iff. split.
    - intros [path [Hpath Hg]]. apply in_map_iff in Hpath as [[p f] [<- Hin]].
      exists p. split; [apply in_map_iff; exists (p, f); auto|].
      unfold g in Hg. rewrite basename_local in Hg.
      destruct (store_lookup_total inputs [] p (or_introl (in_map fst _ _ Hin))) as [f' Hf'].
      fold (local_store inputs) in Hf'. rewrite Hf' in Hg |- *.
      destruct f' as [|l0 f0]; [reflexivity|]. cbn [_header_length] in Hg.
      destruct (read_csv _ _); discriminate.
    - intros [p [Hp Hl]]. exists ("_local/" ++ basename p). split.
      + apply in_map_iff in Hp as [[p' f] [Hp' Hin]]. cbn [fst] in Hp'. subst p'.
        apply in_map_iff. exists (p, f). auto.
      + unfold g. rewrite basename_local, Hl. reflexivity. }
  destruct (mapM g _) eqn:E; split; intros H.
  - discriminate.
  - apply Hm in H. discriminate.
  - exact (proj1 Hm eq_refl).
  - reflexivity.
Qed.

Lemma copy_po_csvs_none_witness :
  copy_po_csvs [("in/a_PO.csv", header_only_file); ("in/b_PO.csv", [])] = None.
Proof.
  apply (copy_po_csvs_none [("in/a_PO.csv", header_only_file); ("in/b_PO.csv", [])]).
  exists "in/b_PO.csv". split; [right; left; reflexivity | reflexivity].
Defined.

(* ------------------------------------------------------------------ *)
(** ** Normalised tables *)

Lemma app_sep_suffix (x : ascii) (l1 : list ascii) : forall l2 d1 d2,
  ~ In x d1 -> ~ In x d2 -> (l1 ++ x :: d1 = l2 ++ x :: d2)%list -> d1 = d2.
Proof.
  induction l1 as [|y l1 IH]; intros [|z l2] d1 d2 H1 H2 H; cbn [app] in H.
  - injection H as ->. reflexivity.
  - injection H as <- ->. exfalso. apply H1, in_or_app. right. left. reflexivity.
  - injection H as -> <-. exfalso. apply H2, in_or_app. right. left. reflexivity.
  - injection H as _ H. exact (IH l2 d1 d2 H1 H2 H).
Qed.

Lemma N_to_dec_digits (n : N) :
  all_digits (list_ascii_of_string (N_to_dec n)) /\
  fold_left (fun acc c => (acc * 10 + digit_val c)%N) (list_ascii_of_string (N_to_dec n)) 0%N = n.
Proof.
  unfold N_to_dec. destruct (N_digits_spec (S (N.to_nat n)) n ltac:(lia)) as [_ [H1 H2]].
  split; assumption.
Qed.

Lemma N_to_dec_inj (n m : N) : N_to_dec n = N_to_dec m -> n = m.
Proof.
  intros H. rewrite <- (proj2 (N_to_dec_digits n)), <- (proj2 (N_to_dec_digits m)), H.
  reflexivity.
Qed.

Lemma N_to_dec_no_dot (n : N) : ~ In "."%char (list_ascii_of_string (N_to_dec n)).
Proof.
  intros Hin. pose proof (proj1 (N_to_dec_digits n)) as Hd.
  unfold all_digits in Hd. rewrite Forall_forall in Hd. specialize (Hd _ Hin). discriminate Hd.
Qed.

(** The column label [f"{column}.{i}"]. *)
Lemma column_label_inj (a b : cell) (i j : nat) :
  cell_str a ++ "." ++ N_to_dec (N.of_nat i) = cell_str b ++ "." ++ N_to_dec (N.of_nat j) ->
  i = j.
Proof.
  intros H. apply (f_equal list_ascii_of_string) in H. rewrite !list_ascii_app in H.
  cbn [append list_ascii_of_string] in H.
  apply app_sep_suffix in H; [|apply N_to_dec_no_dot | apply N_to_dec_no_dot].
  apply (f_equal string_of_list_ascii) in H. rewrite !string_of_list_ascii_of_string in H.
  apply N_to_dec_inj in H. lia.
Qed.

Lemma NoDup_map_combine_seq {A B} (f : nat * A -> B) (l : list A) :
  (forall i j a b, f (i, a) = f (j, b) -> i = j) ->
  forall k, NoDup (map f (combine (seq k (length l)) l)).
Proof.
  intros Hf. induction l as [|a l IH]; intros k; [constructor|].
  cbn [length seq combine map]. constructor; [|apply IH].
  intros Hin. apply in_map_iff in Hin as [[j b] [Heq Hin]].
  apply Hf in Heq. apply in_combine_l, in_seq in Hin. lia.
Qed.

(** The column labels of a normalised table are pairwise distinct, even
    when the header line repeats a label: each carries its position. *)
Theorem parse_po_csv_labels_distinct (input_file : string) (file : csv_file) (t : po_table) :
  parse_po_csv input_file file = Some t -> NoDup (t_cols t).
Proof.
  intros H. unfold parse_po_csv in H. cbv zeta in H.
  repeat match type of H with
         | context [match ?x with _ => _ end] => destruct x eqn:?; try discriminate H
         end.
  injection H as <-. cbn [t_cols].
  apply (NoDup_map_combine_seq (fun '(i, c) => cell_str c ++ "." ++ N_to_dec (N.of_nat i))).
  intros i j a b. apply column_label_inj.
Qed.

Lemma parse_po_csv_labels_distinct_witness :
  exists t, parse_po_csv "ex_1%_60m_tp01_PO.csv" sample_po_file = Some t /\ NoDup (t_cols t).
Proof.
  assert (H : parse_po_csv "ex_1%_60m_tp01_PO.csv" sample_po_file =
              Some {| t_index := [None; Some "0.0"; Some "1.0"; Some "2.0"];
                      t_cols := ["Flow.0"; "Flow.1"];
                      t_data := [[Some "PO_A"; Some "PO_B"]; [Some "A"; Some "B"];
                                 [Some "3"; Some "2.5"]; [Some "7"; None]];
                      t_name := "ex_1%_60m_tp01_PO.csv" |}) by (vm_compute; reflexivity).
  eexists. split; [exact H | exact (parse_po_csv_labels_distinct _ _ _ H)].
Defined.

Lemma first_index_aux_none (file : csv_file) : forall i,
  Forall (fun row => ~ In "Flow" row) file -> first_index_aux i file = None.
Proof.
  induction file as [|row r IH]; intros i H; [reflexivity|].
  inversion H as [|? ? Hrow Hr]; subst. cbn [first_index_aux].
  destruct (existsb (String.eqb "Flow") row) eqn:E.
  - apply existsb_exists in E as [x [Hx Heq]]. apply String.eqb_eq in Heq. subst. contradiction.
  - apply IH, Hr.
Qed.

(** [parse_po_csv] gives no table for an empty file, for a file of blank
    lines only, or for a file in which no field is exactly "Flow". *)
Theorem parse_po_csv_rejects (input_file : string) (file : csv_file) :
  file = [] \/ filter nonblank file = [] \/ Forall (fun row => ~ In "Flow" row) file ->
  parse_po_csv input_file file = None.
Proof.
  intros [->|[Hb|Hf]]; [reflexivity| |].
  - unfold parse_po_csv. destruct (_header_length file); [|reflexivity].
    unfold read_csv. rewrite Hb. reflexivity.
  - unfold parse_po_csv. destruct (_header_length file); [|reflexivity].
    destruct (read_csv n file); [|reflexivity].
    unfold _header_col. rewrite first_index_aux_none by exact Hf. reflexivity.
Qed.

Lemma parse_po_csv_rejects_witness :
  parse_po_csv "ex_1%_60m_tp01_PO.csv" [["Name"; "Time"; "Depth"]; ["a"; "0"; "1"]] = None.
Proof.
  apply parse_po_csv_rejects. right. right.
  repeat constructor; cbn; intros H; repeat destruct H as [H|H]; discriminate H || exact H.
Defined.

(* ------------------------------------------------------------------ *)
(** ** Numeric coercion *)

Lemma digits_run_all (l : list ascii) : forall acc n,
  all_digits l ->
  digits_run acc n l = (fold_left (fun acc c => (acc * 10 + digit_val c)%N) l acc, (n + length l)%nat, []).
Proof.
  induction l as [|c r IH]; intros acc n Hd.
  - cbn. rewrite Nat.add_0_r. reflexivity.
  - inversion Hd as [|? ? Hc Hr]; subst. cbn [digits_run]. rewrite Hc, IH by exact Hr.
    cbn [fold_left length]. rewrite Nat.add_succ_r. reflexivity.
Qed.

Lemma lower_list_digits (l : list ascii) : all_digits l -> lower_list l = l.
Proof.
  induction l as [|c r IH]; intros Hd; [reflexivity|].
  inversion Hd as [|? ? Hc Hr]; subst. cbn [lower_list map]. fold (lower_list r).
  rewrite IH by exact Hr. f_equal.
  unfold is_digit in Hc. apply andb_true_iff in Hc as [H1 H2]. apply Nat.leb_le in H1, H2.
  unfold lower_char. destruct ((65 <=? ascii_code c)%nat && (ascii_code c <=? 90)%nat) eqn:E;
    [|reflexivity].
  apply andb_true_iff in E as [E _]. apply Nat.leb_le in E. lia.
Qed.

Lemma digits_not_word (l : list ascii) (w : string) :
  all_digits l -> (exists c r, list_ascii_of_string w = c :: r /\ is_digit c = false) ->
  String.eqb (string_of_list_ascii l) w = false.
Proof.
  intros Hd [c [r [Hw Hc]]]. destruct (String.eqb _ w) eqn:E; [|reflexivity].
  apply String.eqb_eq in E. subst w. rewrite list_ascii_of_string_of_list_ascii in Hw. subst l.
  inversion Hd as [|? ? Hc' _]. congruence.
Qed.

Lemma body_of_N_to_dec (n : N) :
  let l := list_ascii_of_string (N_to_dec n) in
  (String.eqb (string_of_list_ascii (lower_list l)) "inf"
   || String.eqb (string_of_list_ascii (lower_list l)) "infinity") = false /\
  String.eqb (string_of_list_ascii (lower_list l)) "nan" = false /\
  parse_decimal l = Some (inject_Z (Z.of_N n)).
Proof.
  intros l. destruct (N_to_dec_digits n) as [Hd Hf]. fold l in Hd, Hf.
  rewrite lower_list_digits by exact Hd.
  rewrite !(digits_not_word l); try exact Hd; try (do 2 eexists; split; [reflexivity | reflexivity]).
  split; [reflexivity|]. split; [reflexivity|].
  unfold parse_decimal. rewrite digits_run_all by exact Hd. rewrite Hf. cbn [Nat.add].
  assert (Hne : length l <> O).
  { unfold l, N_to_dec. destruct (N_digits_spec (S (N.to_nat n)) n ltac:(lia)) as [Hne _].
    destruct (list_ascii_of_string _); [contradiction | discriminate]. }
  rewrite Nat.add_0_r. destruct (Nat.eqb (length l) 0) eqn:E; [apply Nat.eqb_eq in E; contradiction|].
  cbn [parse_exponent]. unfold scale10, pow10. cbn. rewrite ?Z.mul_1_r, ?Z.add_0_r, ?Z.mul_1_r. reflexivity.
Qed.

Lemma N_to_dec_edges (n : N) :
  let l := list_ascii_of_string (N_to_dec n) in
  exists c r, l = c :: r /\ is_digit c = true /\ py_strip l = l.
Proof.
  intros l. destruct (N_to_dec_digits n) as [Hd _]. fold l in Hd.
  destruct l as [|c r] eqn:El.
  - exfalso. unfold l, N_to_dec in El.
    destruct (N_digits_spec (S (N.to_nat n)) n ltac:(lia)) as [Hne _]. contradiction.
  - exists c, r. inversion Hd as [|? ? Hc _]; subst.
    split; [reflexivity|]. split; [exact Hc|].
    apply py_strip_id; [apply digit_not_space, Hc | apply last_digit, Hd].
Qed.

(** [pd.to_numeric(errors="coerce")] reads the decimal text Python writes
    for an integer back as that integer.  A flow column holds text, so it
    is coerced to float64, which holds every integer up to 2^53 in
    magnitude exactly: hence the bound. *)
Theorem to_numeric_int_text (z : Z) :
  (Z.abs z <= 2 ^ 53)%Z -> to_numeric (Some (Z_to_dec z)) = Some (NFin (inject_Z z)).
Proof.
  intros _. destruct z as [|p|p].
  - reflexivity.
  - unfold Z_to_dec, to_numeric. change (Z.to_N (Zpos p)) with (Npos p).
    destruct (N_to_dec_edges (Npos p)) as [c [r [El [Hc Hs]]]].
    destruct (body_of_N_to_dec (Npos p)) as [Hi [Hn Hp]].
    rewrite Hs. rewrite El in Hi, Hn, Hp |- *.
    assert (Hm : Ascii.eqb c "-" = false)
      by (destruct (Ascii.eqb c "-") eqn:E; [apply Ascii.eqb_eq in E; subst; discriminate Hc | reflexivity]).
    assert (Hpl : Ascii.eqb c "+" = false)
      by (destruct (Ascii.eqb c "+") eqn:E; [apply Ascii.eqb_eq in E; subst; discriminate Hc | reflexivity]).
    rewrite Hm, Hpl, Hi, Hn, Hp. reflexivity.
  - unfold Z_to_dec, to_numeric.
    destruct (N_to_dec_edges (Npos p)) as [c [r [El [Hc Hs]]]].
    destruct (body_of_N_to_dec (Npos p)) as [Hi [Hn Hp]].
    rewrite list_ascii_app. cbn [list_ascii_of_string app]. rewrite El in Hi, Hn, Hp |- *.
    rewrite py_strip_id.
    + cbv beta iota. change (Ascii.eqb "-" "-") with true. cbv beta iota zeta.
      rewrite Hi, Hn, Hp. reflexivity.
    + reflexivity.
    + rewrite <- El. cbn [rev].
      pose proof (last_digit _ (proj1 (N_to_dec_digits (Npos p)))) as Hl.
      destruct (rev (list_ascii_of_string (N_to_dec (Npos p)))) as [|d ds]; cbn [app];
        [reflexivity | exact Hl].
Qed.

Lemma to_numeric_int_text_witness :
  (Z.abs (-9007199254740992) <= 2 ^ 53)%Z /\
  to_numeric (Some (Z_to_dec (-9007199254740992))) = Some (NFin (inject_Z (-9007199254740992))).
Proof.
  split; [vm_compute; discriminate|].
  apply to_numeric_int_text. vm_compute. discriminate.
Defined.

(* ------------------------------------------------------------------ *)
(** ** Splitting the ensemble table *)

Lemma mapM_map_eq {A B C} (g : A -> option B) (h' : B -> C) (h : A -> C) (l : list A) (ys : list B) :
  mapM g l = Some ys ->
  (forall x y, In x l -> g x = Some y -> h' y = h x) ->
  map h' ys = map h l.
Proof.
  revert ys; induction l as [|x r IH]; intros ys H Hh; cbn [mapM] in H.
  - injection H as <-. reflexivity.
  - destruct (g x) as [y|] eqn:Eg; [|discriminate].
    destruct (mapM g r) as [ys'|] eqn:Er; [|discriminate]. injection H as <-.
    cbn [map]. rewrite (Hh x y (or_introl eq_refl) Eg).
    rewrite (IH ys' eq_refl); [reflexivity|]. intros x' y' Hx' Hg. apply Hh; [right|]; assumption.
Qed.

Lemma unique_aux_props (l : list string) : forall seen,
  NoDup (unique_aux seen l) /\
  (forall x, In x (unique_aux seen l) -> In x l /\ ~ In x seen).
Proof.
  induction l as [|y r IH]; intros seen; cbn [unique_aux].
  - split; [constructor | intros x []].
  - destruct (existsb (String.eqb y) seen) eqn:E.
    + destruct (IH seen) as [Hn Hi]. split; [exact Hn|].
      intros x Hx. destruct (Hi x Hx). split; [right|]; assumption.
    + destruct (IH (y :: seen)) as [Hn Hi]. split.
      * constructor; [|exact Hn]. intros Hy. destruct (Hi y Hy) as [_ Hs]. apply Hs. left. reflexivity.
      * intros x [<-|Hx].
        -- split; [left; reflexivity|]. intros Hs.
           assert (Ht : existsb (String.eqb y) seen = true)
             by (apply existsb_exists; exists y; split; [exact Hs | apply String.eqb_refl]).
           congruence.
        -- destruct (Hi x Hx) as [H1 H2]. split; [right; exact H1|]. intros Hs. apply H2. right. exact Hs.
Qed.

Lemma unique_NoDup (l : list string) : NoDup (unique l).
Proof. apply unique_aux_props. Qed.

Lemma unique_sub (l : list string) (x : string) : In x (unique l) -> In x l.
Proof. intros H. apply (proj2 (unique_aux_props l []) x H). Qed.

Lemma concat_nil_parts (es : list string) :
  concat (map (event_filter []) es) = [].
Proof. induction es; [reflexivity | exact IHes]. Qed.

Lemma concat_event_filter_cons (x : run) (l : list run) (es : list string) :
  NoDup es -> In (r_event x) es ->
  Permutation (concat (map (event_filter (x :: l)) es)) (x :: concat (map (event_filter l) es)).
Proof.
  induction es as [|e es IH]; intros Hn Hin; [destruct Hin|].
  inversion Hn as [|? ? He Hn']; subst. cbn [map concat]. unfold event_filter at 1. cbn [filter].
  destruct (String.eqb (r_event x) e) eqn:E.
  - apply String.eqb_eq in E.
    assert (Hm : map (event_filter (x :: l)) es = map (event_filter l) es).
    { apply map_ext_in. intros e' He'. unfold event_filter. cbn [filter].
      destruct (String.eqb (r_event x) e') eqn:E'; [|reflexivity].
      apply String.eqb_eq in E'. rewrite E in E'. subst. contradiction. }
    rewrite Hm. reflexivity.
  - destruct Hin as [Hx|Hin]; [rewrite Hx, String.eqb_refl in E; discriminate|].
    rewrite (IH Hn' Hin). apply Permutation_sym, Permutation_middle.
Qed.

Lemma concat_event_filter_perm (l : list run) (es : list string) :
  NoDup es -> (forall x, In x l -> In (r_event x) es) ->
  Permutation (concat (map (event_filter l) es)) l.
Proof.
  intros Hn. induction l as [|x l IH]; intros Hall.
  - rewrite concat_nil_parts. reflexivity.
  - rewrite concat_event_filter_cons by (exact Hn || apply Hall; left; reflexivity).
    apply perm_skip, IH. intros y Hy. apply Hall. right. exact Hy.
Qed.

Lemma event_filter_head (rows : list run) (e : string) :
  In e (map r_event rows) ->
  exists r rest, event_filter rows e = r :: rest /\ r_event r = e.
Proof.
  intros Hin. apply in_map_iff in Hin as [r0 [He Hr0]].
  destruct (event_filter rows e) as [|r rest] eqn:Ef.
  - assert (Hf : In r0 (event_filter rows e))
      by (apply filter_In; split; [exact Hr0 | apply String.eqb_eq, He]).
    rewrite Ef in Hf. destruct Hf.
  - exists r, rest. split; [reflexivity|].
    assert (Hr : In r (event_filter rows e)) by (rewrite Ef; left; reflexivity).
    apply filter_In in Hr as [_ Hr]. apply String.eqb_eq, Hr.
Qed.

(** [_split_event] splits the rows of a frame without losing or repeating
    any: the parts put together are a permutation of the rows, and each part
    is non-empty and holds the rows of one event, each event once.
    [all_critical_storms] works on exactly these parts, for every
    location column that [_split_po_dfs] keeps. *)
Theorem split_event_partition (tbl : ensemble) (rows : list run) :
  slices tbl = concat (map (fun '(c, rs) => map (fun part => (c, part)) (_split_event rs))
                           (_split_po_dfs tbl)) /\
  Permutation (concat (_split_event rows)) rows /\
  NoDup (map (fun part => map r_event part) (_split_event rows)) /\
  Forall (fun part => exists e r rest, part = r :: rest /\ Forall (fun r => r_event r = e) part)
         (_split_event rows).
Proof.
  split; [|split; [|split]].
  - unfold slices, _split_po_dfs, _split_event. rewrite map_map. f_equal.
    apply map_ext. intros c. rewrite map_map. reflexivity.
  - unfold _split_event. fold (event_filter rows).
    apply concat_event_filter_perm; [apply unique_NoDup|].
    intros x Hx. apply unique_In, in_map, Hx.
  - unfold _split_event. fold (event_filter rows). rewrite map_map.
    assert (Hsub : forall e, In e (unique (map r_event rows)) -> In e (map r_event rows))
      by apply unique_sub.
    pose proof (unique_NoDup (map r_event rows)) as Hn.
    induction Hn as [|e es He Hn IH]; cbn [map]; constructor.
    + intros Hin. apply in_map_iff in Hin as [e' [Heq He']].
      destruct (event_filter_head rows e (Hsub e (or_introl eq_refl))) as [r [rest [Ef Hr]]].
      destruct (event_filter_head rows e' (Hsub e' (or_intror He'))) as [r' [rest' [Ef' Hr']]].
      rewrite Ef, Ef' in Heq. injection Heq as Heq _. apply He. congruence.
    + apply IH. intros e' He'. apply Hsub. right. exact He'.
  - apply Forall_forall. intros part Hp. unfold _split_event in Hp.
    apply in_map_iff in Hp as [e [<- He]]. fold (event_filter rows e).
    destruct (event_filter_head rows e (unique_sub _ _ He)) as [r [rest [Ef _]]].
    exists e, r, rest. split; [exact Ef|].
    apply Forall_forall. intros r' Hr'. apply filter_In in Hr' as [_ Hr']. apply String.eqb_eq, Hr'.
Qed.

Lemma critical_storm_names (tbl : ensemble) (grids : list (string * grid)) :
  all_critical_storms tbl = Some grids ->
  map fst grids =
  concat (map (fun c => map (fun e => e ++ ": " ++ c) (unique (map r_event (e_runs tbl))))
              (filter (contains "Max Flow") (e_cols tbl))).
Proof.
  intros H. unfold all_critical_storms in H.
  rewrite (mapM_map_eq _ fst
             (fun '(c, rows) => hd EmptyString (unique (map r_event rows)) ++ ": " ++ c) _ _ H).
  - unfold slices. rewrite concat_map, map_map. f_equal. apply map_ext. intros c.
    rewrite map_map. apply map_ext_in. intros e He.
    destruct (event_filter_head (e_runs tbl) e (unique_sub _ _ He)) as [r [rest [Ef Hr]]].
    fold (event_filter (e_runs tbl) e). rewrite Ef. cbn [map unique unique_aux existsb hd].
    rewrite Hr. reflexivity.
  - intros [c rows] [name g] _ Hg.
    destruct (_tp_vs_max_flow_df c rows) as [[[event po_line] df]|] eqn:Et; [|discriminate].
    destruct (_drop_sort_duration df); [|discriminate]. injection Hg as <- _.
    unfold _tp_vs_max_flow_df in Et. cbn [fst].
    destruct (unique (map r_event rows)) as [|e es]; [discriminate|].
    destruct (pivot c rows) as [pv|]; [|discriminate].
    destruct (_drop_sort_duration pv) as [sv|]; [|discriminate].
    destruct (mapM _ sv); [|discriminate]. injection Et as <- <- _. reflexivity.
Qed.


(** The grids of [all_critical_storms] come one per location column and
    event, location columns outermost, each named "<event>: <column>". *)
Theorem all_critical_storms_names (tbl : ensemble) (grids : list (string * grid)) :
  all_critical_storms tbl = Some grids ->
  map fst grids =
  concat (map (fun c => map (fun e => e ++ ": " ++ c) (unique (map r_event (e_runs tbl))))
              (filter (contains "Max Flow") (e_cols tbl))).
Proof. apply critical_storm_names. Qed.

Lemma all_critical_storms_names_witness :
  exists grids, all_critical_storms two_event_table = Some grids /\
    map fst grids = ["1%: Max Flow A"; "2%: Max Flow A"; "1%: Max Flow B"; "2%: Max Flow B"].
Proof.
  destruct (all_critical_storms two_event_table) as [grids|] eqn:E;
    [|vm_compute in E; discriminate E].
  exists grids. split; [reflexivity|].
  rewrite (all_critical_storms_names two_event_table grids E). reflexivity.
Defined.

(* ------------------------------------------------------------------ *)
(** ** Names of the summaries *)

Lemma prefixb_app (p s : string) : prefixb p (p ++ s) = true.
Proof.
  induction p as [|c p IH]; [destruct s; reflexivity|].
  cbn [append prefixb]. rewrite IH, Ascii.eqb_refl. reflexivity.
Qed.

Lemma replace_no_match (old new : string) (fuel : nat) : forall s,
  contains old s = false -> replace_fuel fuel old new s = s.
Proof.
  induction fuel as [|f IH]; intros s H; [reflexivity|].
  destruct s as [|c r]; [reflexivity|].
  cbn [contains] in H. apply orb_false_iff in H as [Hp Hr].
  cbn [replace_fuel]. rewrite Hp, andb_false_r, IH by exact Hr. reflexivity.
Qed.

Lemma replace_fuel_nomatch (old new : string) (k : nat) (c : ascii) (x : string) :
  prefixb old (String c x) = false ->
  replace_fuel (S k) old new (String c x) = String c (replace_fuel k old new x).
Proof. intros H. cbn [replace_fuel]. rewrite H, andb_false_r. reflexivity. Qed.

Lemma replace_fuel_match (old new : string) (k : nat) (s : string) :
  old <> EmptyString -> prefixb old s = true ->
  replace_fuel (S k) old new s =
  new ++ replace_fuel k old new (substring (String.length old) (String.length s) s).
Proof.
  intros Hne Hp. destruct s as [|c r].
  - destruct old; [contradiction | discriminate].
  - cbn [replace_fuel]. rewrite Hp.
    destruct (String.eqb old EmptyString) eqn:E; [apply String.eqb_eq in E; contradiction|].
    reflexivity.
Qed.

Lemma str_length_app (a b : string) : String.length (a ++ b) = (String.length a + String.length b)%nat.
Proof. induction a as [|c a IH]; cbn; [reflexivity | rewrite IH; reflexivity]. Qed.

Lemma substring_0_full (s : string) : forall m, (String.length s <= m)%nat -> substring 0 m s = s.
Proof.
  induction s as [|c s IH]; intros [|m] H; cbn in H |- *; try reflexivity; try lia.
  rewrite IH by lia. reflexivity.
Qed.

Lemma substring_skip (p s : string) (m : nat) :
  substring (String.length p) m (p ++ s) = substring 0 m s.
Proof. induction p as [|c p IH]; [reflexivity|]. cbn [String.length append substring]. exact IH. Qed.

(** [po_line.replace("Max Flow ", "")] on what follows the colon of a
    grid name: the space after the colon stays. *)
Lemma po_line_of_name (L : string) :
  contains "Max Flow " L = false ->
  py_replace "Max Flow " "" (String " " ("Max Flow " ++ L)) = String " " L.
Proof.
  intros H. unfold py_replace.
  change (String.length (String " " ("Max Flow " ++ L)))
    with (S (S (String.length ("ax Flow " ++ L)))).
  rewrite replace_fuel_nomatch by reflexivity. f_equal.
  rewrite replace_fuel_match by (discriminate || apply prefixb_app).
  rewrite substring_skip, substring_0_full by (rewrite str_length_app; lia).
  cbn [append]. apply replace_no_match, H.
Qed.

Lemma summarize_results_name (name : string) (g : grid) (s : summary) :
  summarize_results name g = Some s -> (s_event s, s_po_line s) = name_parts name.
Proof.
  unfold summarize_results, name_parts. intros H.
  destruct (idxmax None g); [|discriminate]. destruct (loc_row l g); [|discriminate].
  destruct (split_colon name) as [[event po_line]|]; [|discriminate].
  destruct (String.eqb (g_crit g0) "NA").
  - injection H as <-. reflexivity.
  - destruct (cell_loc g0 (g_crit g0)); [|discriminate]. injection H as <-. reflexivity.
Qed.

(** When every location column is "Max Flow <L>" (no further "Max Flow "
    in L) and no event contains ':', the summaries of [analyse_ensemble]
    come one per location and event, location outermost, with the event and
    PO line read back from the grid name: the PO line is " <L>", the space
    after the colon of the name kept. *)
Theorem analyse_ensemble_names (tbl : ensemble) (Ls : list string) (sums : list summary) :
  e_cols tbl = map (fun L => "Max Flow " ++ L) Ls ->
  Forall (fun L => contains "Max Flow " L = false) Ls ->
  Forall (fun e => ~ In ":"%char (list_ascii_of_string e)) (map r_event (e_runs tbl)) ->
  analyse_ensemble tbl = Some sums ->
  map (fun s => (s_event s, s_po_line s)) sums =
  concat (map (fun L => map (fun e => (e, String " " L)) (unique (map r_event (e_runs tbl)))) Ls).
Proof.
  intros Hc HL He H. unfold analyse_ensemble in H.
  destruct (all_critical_storms tbl) as [grids|] eqn:Eg; [|discriminate].
  rewrite (mapM_map_eq _ (fun s => (s_event s, s_po_line s)) (fun p => name_parts (fst p)) _ _ H).
  2:{ intros [name g] s _ Hs. exact (summarize_results_name name g s Hs). }
  rewrite <- (map_map fst name_parts), (critical_storm_names tbl grids Eg), Hc.
  rewrite filter_all.
  2:{ apply forallb_forall. intros c Hin. apply in_map_iff in Hin as [L [<- _]]. reflexivity. }
  rewrite concat_map, !map_map. f_equal. apply map_ext_in. intros L HLin.
  rewrite map_map. apply map_ext_in. intros e Hein.
  unfold name_parts.
  replace (e ++ ": " ++ "Max Flow " ++ L) with (e ++ String ":" (String " " ("Max Flow " ++ L)))
    by reflexivity.
  rewrite split_colon_app.
  - rewrite po_line_of_name; [reflexivity|]. rewrite Forall_forall in HL. apply HL, HLin.
  - rewrite Forall_forall in He. apply He, unique_sub, Hein.
Qed.

Lemma analyse_ensemble_names_witness :
  exists sums, analyse_ensemble two_event_table = Some sums /\
    map (fun s => (s_event s, s_po_line s)) sums =
    [("1%", " A"); ("2%", " A"); ("1%", " B"); ("2%", " B")].
Proof.
  destruct (analyse_ensemble two_event_table) as [sums|] eqn:E;
    [|vm_compute in E; discriminate E].
  exists sums. split; [reflexivity|].
  rewrite (analyse_ensemble_names two_event_table ["A"; "B"] sums); try reflexivity.
  - repeat constructor.
  - repeat constructor; cbn; intros Hc; repeat destruct Hc as [Hc|Hc]; discriminate Hc || exact Hc.
  - exact E.
Defined.

(* ------------------------------------------------------------------ *)
(** ** Average and median of a grid row *)










(* ------------------------------------------------------------------ *)
(** ** Run identities of a batch *)

Ltac destruct_matches H :=
  repeat match type of H with
         | context [match ?x with _ => _ end] => destruct x; try discriminate H
         end.

Lemma parse_po_csv_name (input_file : string) (file : csv_file) (t : po_table) :
  parse_po_csv input_file file = Some t -> t_name t = basename input_file.
Proof.
  intros H. unfold parse_po_csv in H. destruct_matches H.
  injection H as <-. reflexivity.
Qed.

Lemma get_all_max_flows_name (t : po_table) (r : peak_row) :
  _get_all_max_flows t = Some r -> p_run_id r = t_name t.
Proof.
  intros H. unfold _get_all_max_flows in H. destruct_matches H.
  injection H as <-. reflexivity.
Qed.

(** A batch that goes through gives one peak row per copy kept by
    [copy_po_csvs], in the same order, whose run id is the file name of
    that copy: files skipped as empty leave no row. *)
Theorem max_flows_batch_run_ids (raw_inputs : list (string * csv_file)) (rows : list peak_row) :
  max_flows_batch raw_inputs = Some rows ->
  exists saved, copy_po_csvs raw_inputs = Some saved /\
                map p_run_id rows = map basename saved.
Proof.
  unfold max_flows_batch. intros H.
  destruct (copy_po_csvs raw_inputs) as [saved|]; [|discriminate].
  exists saved. split; [reflexivity|].
  destruct (mapM _ saved) as [tables|] eqn:Em; [|discriminate].
  unfold concat_po_srs in H.
  rewrite (mapM_map_eq _ p_run_id t_name _ _ H) by (intros t r _ Hr; exact (get_all_max_flows_name t r Hr)).
  apply (mapM_map_eq _ t_name basename _ _ Em).
  intros path t _ Ht. destruct (lookup (basename path) (local_store raw_inputs)); [|discriminate].
  exact (parse_po_csv_name path _ t Ht).
Qed.

Lemma max_flows_batch_run_ids_witness :
  exists rows,
    max_flows_batch [("in/Ex_1%_90m_tp01_PO.csv", sample_po_file); ("in/blank_PO.csv", [[]; []]);
                     ("other/Ex_2%_60m_tp02_PO.csv", sample_po_file)] = Some rows /\
    map p_run_id rows = ["Ex_1%_90m_tp01_PO.csv"; "Ex_2%_60m_tp02_PO.csv"].
Proof.
  destruct (max_flows_batch [("in/Ex_1%_90m_tp01_PO.csv", sample_po_file); ("in/blank_PO.csv", [[]; []]);
                             ("other/Ex_2%_60m_tp02_PO.csv", sample_po_file)]) as [rows|] eqn:E;
    [|vm_compute in E; discriminate E].
  exists rows. split; [reflexivity|].
  destruct (max_flows_batch_run_ids _ rows E) as [saved [Hs ->]].
  vm_compute in Hs. injection Hs as <-. reflexivity.
Defined.

(* ------------------------------------------------------------------ *)
(** ** Cells of the pivot *)

Lemma str_insert_perm (x : string) (l : list string) : Permutation (str_insert x l) (x :: l).
Proof.
  induction l as [|y r IH]; cbn [str_insert]; [reflexivity|].
  destruct (String.leb x y); [reflexivity|].
  rewrite IH. apply perm_swap.
Qed.

Lemma str_sort_perm (l : list string) : Permutation (str_sort l) l.
Proof.
  induction l as [|x r IH]; [reflexivity|]. unfold str_sort in *. cbn [fold_right].
  rewrite str_insert_perm, IH. reflexivity.
Qed.

Lemma lookup_map_key {A} (f : string -> A) (k : string) (ks : list string) :
  In k ks -> lookup k (map (fun t => (t, f t)) ks) = Some (f k).
Proof.
  induction ks as [|k' ks IH]; intros Hin; [destruct Hin|]. cbn [map lookup].
  destruct (String.eqb k k') eqn:E.
  - apply String.eqb_eq in E as <-. reflexivity.
  - destruct Hin as [<-|Hin]; [rewrite String.eqb_refl in E; discriminate E | exact (IH Hin)].
Qed.

Lemma find_pair_self (rows : list run) (r : run) :
  has_dup_pair rows = false -> In r rows ->
  find (fun r' => String.eqb (r_duration r') (r_duration r) && String.eqb (r_tp r') (r_tp r)) rows = Some r.
Proof.
  induction rows as [|x rest IH]; intros Hd Hin; [destruct Hin|].
  cbn [has_dup_pair] in Hd. apply orb_false_iff in Hd as [Hx Hrest].
  cbn [find]. destruct (String.eqb (r_duration x) (r_duration r) && String.eqb (r_tp x) (r_tp r)) eqn:E.
  - destruct Hin as [->|Hin]; [reflexivity|].
    exfalso. assert (Hs : existsb (same_pair x) rest = true).
    { apply existsb_exists. exists r. split; [exact Hin | exact E]. }
    rewrite Hs in Hx. discriminate Hx.
  - destruct Hin as [->|Hin].
    + rewrite !String.eqb_refl in E. discriminate E.
    + exact (IH Hrest Hin).
Qed.

(** [pivot] keeps every run: the row of its duration holds, under its
    temporal pattern, the run's value in the location column; and every
    number in the pivot is the value of a run with that duration and
    temporal pattern. *)
Theorem pivot_cells (po_line : string) (rows : list run) (p : list (label * list (string * option Q))) :
  pivot po_line rows = Some p ->
  (forall r, In r rows ->
   exists cells, In (LStr (r_duration r), cells) p /\ lookup (r_tp r) cells = Some (flow_of po_line r)) /\
  (forall d cells t v, In (LStr d, cells) p -> In (t, Some v) cells ->
   exists r, In r rows /\ r_duration r = d /\ r_tp r = t /\ flow_of po_line r = Some v).
Proof.
  unfold pivot. destruct (has_dup_pair rows) eqn:Hd; [discriminate|].
  intros H. injection H as <-. split.
  - intros r Hr. eexists. split.
    + apply in_map_iff. exists (r_duration r). split; [reflexivity|].
      apply (Permutation_in _ (Permutation_sym (str_sort_perm _))), unique_In, in_map, Hr.
    + rewrite (lookup_map_key (fun t => cell_at po_line rows (r_duration r) t)).
      * unfold cell_at. rewrite (find_pair_self rows r Hd Hr). reflexivity.
      * apply (Permutation_in _ (Permutation_sym (str_sort_perm _))), unique_In, in_map, Hr.
  - intros d cells t v Hc Ht.
    apply in_map_iff in Hc as [d' [Hc _]]. injection Hc as <- <-.
    apply in_map_iff in Ht as [t' [Ht _]]. injection Ht as <- Hv.
    unfold cell_at in Hv.
    destruct (find _ rows) as [r|] eqn:Ef; [|discriminate Hv].
    apply find_some in Ef as [Hr Hp]. apply andb_prop in Hp as [H1 H2].
    apply String.eqb_eq in H1, H2.
    exists r. repeat split; assumption.
Qed.

Lemma pivot_cells_witness :
  exists p, pivot "Max Flow A" (event_filter (e_runs two_event_table) "1%") = Some p /\
    exists cells, In (LStr "60m", cells) p /\ lookup "tp02" cells = Some (Some 6).
Proof.
  destruct (pivot "Max Flow A" (event_filter (e_runs two_event_table) "1%")) as [p|] eqn:E;
    [|vm_compute in E; discriminate E].
  exists p. split; [reflexivity|].
  exact (proj1 (pivot_cells _ _ p E) (two_event_run "1%" "60m" "tp02" 6 8) (or_intror (or_introl eq_refl))).
Defined.

(* ------------------------------------------------------------------ *)
(** ** Empty ensembles *)

(** A table of runs none of whose columns is a ["Max Flow"] column (the
    result files named no flow location) has nothing to slice: the
    analysis succeeds with no grid and no summary. *)
Theorem analyse_ensemble_empty (tbl : ensemble) :
  e_runs tbl <> [] ->
  filter (contains "Max Flow") (e_cols tbl) = [] ->
  all_critical_storms tbl = Some [] /\ analyse_ensemble tbl = Some [].
Proof.
  intros _ H. assert (Hs : slices tbl = []) by (unfold slices; rewrite H; reflexivity).
  assert (Ha : all_critical_storms tbl = Some []) by (unfold all_critical_storms; rewrite Hs; reflexivity).
  split; [exact Ha|]. unfold analyse_ensemble. rewrite Ha. reflexivity.
Qed.

Lemma analyse_ensemble_empty_witness :
  let tbl := {| e_cols := []; e_runs := [{| run_id := "Ex_1%_60m_tp01_PO.csv"; r_event := "1%";
                                             r_duration := "60m"; r_tp := "tp01"; r_flows := [] |}] |} in
  all_critical_storms tbl = Some [] /\ analyse_ensemble tbl = Some [].
Proof. intros tbl. apply analyse_ensemble_empty; [discriminate | reflexivity]. Defined.

(* ------------------------------------------------------------------ *)
(** ** The PO lines of a table *)



(* ------------------------------------------------------------------ *)
(** ** The header line *)

Lemma first_index_aux_none_iff (file : csv_file) : forall i,
  first_index_aux i file = None <-> Forall (fun row => ~ In "Flow" row) file.
Proof.
  induction file as [|row r IH]; intros i; cbn [first_index_aux]; [split; constructor|].
  destruct (existsb (String.eqb "Flow") row) eqn:E.
  - split; [discriminate|]. intros H. inversion H as [|? ? Hrow _]; subst.
    apply existsb_exists in E as [x [Hx Hxe]]. apply String.eqb_eq in Hxe. subst x. contradiction.
  - rewrite IH. split.
    + intros H. constructor; [|exact H]. intros Hin.
      assert (existsb (String.eqb "Flow") row = true) by (apply existsb_exists; exists "Flow"; split; [exact Hin | apply String.eqb_refl]).
      congruence.
    + intros H. inversion H; assumption.
Qed.

(** [_header_col] is the index of the first line holding a field equal to
    "Flow", and fails exactly when no line holds one. *)
Theorem header_col_first (file : csv_file) :
  (forall k, _header_col file = Some k ->
     (exists row, nth_error file k = Some row /\ In "Flow" row) /\
     (forall j row, (j < k)%nat -> nth_error file j = Some row -> ~ In "Flow" row)) /\
  (_header_col file = None <-> Forall (fun row => ~ In "Flow" row) file).
Proof.
  split.
  - intros k H. pose proof (first_index_aux_spec file 0 k H) as Hs.
    rewrite Nat.sub_0_r in Hs. exact Hs.
  - apply first_index_aux_none_iff.
Qed.

